(** * Connection orchestrator and event registry of vscode-ibmi

    A shallow embedding of [src/Instance.ts] (the [Instance] class: the
    connect / disconnect protocol and the per-event subscription registry)
    and of the [disconnect] command helper of [src/instantiate.ts],
    followed by the properties the specification states about them. *)

From Stdlib Require Import Ascii.
From stdpp Require Import base option list strings pretty gmap.

(** ** The ECMAScript [Map]

    [Map] keeps its records in one list, [[MapData]], in insertion order.
    [set] on a key that is present overwrites the value of that record where
    it stands, [set] on an absent key appends a record, and [delete] empties
    the record and leaves the hole in the list.  A [Map] iterator is an
    index into that list: it skips the holes and it does reach the records
    appended while the iteration is under way. *)
Module JsMap.
Abbreviation entry V := (string * V)%type.
Abbreviation t V := (list (option (string * V))).

Section js_map.
Context {V : Type}.

Definition holds (k : string) (s : option (entry V)) : bool :=
  match s with
  | Some (k', _) => bool_decide (k' = k)
  | None => false
  end.

Fixpoint get (k : string) (m : t V) : option V :=
  match m with
  | [] => None
  | s :: m' => if holds k s then snd <$> s else get k m'
  end.

Definition has (k : string) (m : t V) : bool :=
  bool_decide (is_Some (get k m)).

Fixpoint set (k : string) (v : V) (m : t V) : t V :=
  match m with
  | [] => [Some (k, v)]
  | s :: m' => if holds k s then Some (k, v) :: m' else s :: set k v m'
  end.

Fixpoint delete (k : string) (m : t V) : t V :=
  match m with
  | [] => []
  | s :: m' => if holds k s then None :: m' else s :: delete k m'
  end.

(** What [entries()] yields on a map nobody touches meanwhile. *)
Definition entries (m : t V) : list (entry V) := omap id m.

Definition keys (m : t V) : list string := (entries m).*1.

(** The keys record by record, holes included. *)
Definition skeleton (m : t V) : list (option string) :=
  (λ s : option (entry V), fst <$> s) <$> m.

(** No key is live twice; [set] and [delete] keep it so. *)
Definition wf (m : t V) : Prop := NoDup (keys m).

End js_map.
End JsMap.

(** ** Handlers

    A subscribed [func] is opaque to [Instance] apart from three things:
    its [name] property, the calls it makes back into the registry while it
    runs (here [subscribe] and [onEvent], each with its arguments), and
    whether the awaited call returns or throws. *)
Definition IBMiEvent : Type := string.

Inductive Outcome : Type := Returns | Throws.

Inductive RegistryCall (F : Type) : Type :=
  | CallSubscribe (extensionId : string) (event : IBMiEvent) (name : string)
      (func : F) (transient : option bool)
  | CallOnEvent (event : IBMiEvent) (func : F).
Global Arguments CallSubscribe {F}.
Global Arguments CallOnEvent {F}.

#[warnings="-register-all"]
Inductive Func : Type :=
  | Fn (name : string) (body : list (RegistryCall Func)) (outcome : Outcome).

Definition funcName (f : Func) : string := let 'Fn n _ _ := f in n.
Definition funcBody (f : Func) : list (RegistryCall Func) := let 'Fn _ b _ := f in b.
Definition funcOutcome (f : Func) : Outcome := let 'Fn _ _ o := f in o.

(** A handler that leaves the registry alone. *)
Definition quiet (f : Func) : Prop := funcBody f = [].

(** What the console and the handlers see, in order.  [Invoke] marks the
    call [callable.func()] itself. *)
Inductive LogEntry : Type :=
  | ConsoleTime (label : string)
  | ConsoleTimeEnd (label : string)
  | ConsoleError (message : string)
  | ConsoleWarn (message : string)
  | Invoke (identity : string) (f : Func).

(** The parts of [vscode.ExtensionContext] and of [vscode.TextDocument]
    that the code reads; [scheme] is [document.uri.scheme]. *)
Module Vscode.
Record Extension : Type := { id : string }.
Record ExtensionContext : Type := { extension : Extension }.

Definition ofId (extensionId : string) : ExtensionContext :=
  {| extension := {| id := extensionId |} |}.

Record TextDocument : Type := { scheme : string; isClosed : bool; isDirty : bool }.
End Vscode.

(** An [IBMi] object: [handleId] tells the objects made by [new IBMi()]
    apart. *)
Record Handle : Type := { handleId : nat; currentConnectionName : string }.

Global Instance Handle_eq_dec : EqDecision Handle.
Proof. solve_decision. Defined.

(** Modelled from the spec: [ConnectionStorage] is not under src/; the spec
    calls what [setConnectionName] writes the current-connection storage
    pointer, so the setter overwrites one name. *)
Record ConnectionStorage : Type := { connectionName : string }.

Definition setConnectionName (name : string) (_ : ConnectionStorage) : ConnectionStorage :=
  {| connectionName := name |}.

(** Modelled from the spec: [CodeForIStorage] is not under src/; the spec
    gives the global record as the last connection name, read by
    [getLastConnection] and overwritten by [setLastConnection]. *)
Record CodeForIStorage : Type := { lastConnection : string }.

Definition setLastConnection (name : string) (_ : CodeForIStorage) : CodeForIStorage :=
  {| lastConnection := name |}.

Definition getLastConnection (g : CodeForIStorage) : string := lastConnection g.

Record IBMiEventSubscription : Type := { func : Func; transient : option bool }.

Abbreviation SubscriptionMap := (JsMap.t IBMiEventSubscription).

(** Modelled from the spec: [ConnectionData] and [ConnectionResult] are
    declared outside src/; the spec lists the credentials as host,
    connection name, user name and port, and the result as a success flag
    with an optional diagnostic. *)
Record ConnectionData : Type := {
  name : string;
  host : string;
  port : nat;
  username : string
}.

Record ConnectionResult : Type := { success : bool; error : option string }.

Record ConnectionOptions : Type := {
  data : ConnectionData;
  reconnecting : option bool;
  reloadServerSettings : option bool
}.

(** [x] in a JavaScript condition, for an optional boolean. *)
Definition truthy (x : option bool) : bool :=
  match x with Some true => true | _ => false end.

(** How an awaited promise settles.  A rejection hands over the value
    thrown: [Rejected message] for a value with its [message] property
    (the empty string also for a value that has none: both are falsy), and
    [RejectedNullish] for [null] or [undefined], on which reading
    [message] throws. *)
Inductive Settled (A : Type) : Type :=
  | Fulfilled (value : A)
  | Rejected (message : string)
  | RejectedNullish.
Global Arguments Fulfilled {A}.
Global Arguments Rejected {A}.
Global Arguments RejectedNullish {A}.

(** How a call of [connect] ends: it hands back a result, or it throws
    the [TypeError] that [e.message] raises in its [catch]. *)
Inductive Completion : Type :=
  | Returned (result : ConnectionResult)
  | Threw.

(** One turn of the connect loop as the surroundings decide it: how
    [connection.connect(...)] settles, and whether the user presses [Yes]
    in the [Could not reconnect] dialog, should it be shown. *)
Record Attempt : Type := { outcome : Settled ConnectionResult; retry : bool }.

(** What a listener can read off the orchestrator at the instant an event
    is handed to the emitter. *)
Record Observed : Type := {
  seenConnection : option Handle;
  seenConnectionName : string;
  seenLastConnection : string
}.

(** The calls the code makes on its collaborators and the writes to the
    [connection] field, in program order.  [Dispose h] is the call
    [h.dispose()]: [IBMi] is not under src/, and what a handle does when it
    is disposed (whether it runs the callback [setConnection] gave it,
    when its teardown is over) is no part of a trace. *)
Inductive Effect : Type :=
  | OutputClear
  | ConnectCall (h : Handle) (reconnecting reloadServerSettings : option bool)
  | Dispose (h : Handle)
  | SetDisconnectedCallback (h : Handle)
  | Install (h : option Handle)
  | StoreConnectionName (name : string)
  | StoreLastConnection (name : string)
  | Fire (event : IBMiEvent) (seen : Observed)
  | SetContext (key : string) (value : bool)
  | ExecuteCommand (command : string)
  | ShowWarningMessage (message detail : string)
  | ConsoleLog (document : Vscode.TextDocument)
  | ShowErrorMessage (message : string)
  | ShowTextDocument (document : Vscode.TextDocument)
  | End_ (h : Handle).

Module Instance.

Record t : Type := {
  connection : option Handle;
  storage : ConnectionStorage;
  subscribers : gmap IBMiEvent (SubscriptionMap);
  deprecationCount : nat
}.

Definition withSubscribers (s : gmap IBMiEvent (SubscriptionMap)) (i : t) : t :=
  {| connection := connection i; storage := storage i;
     subscribers := s; deprecationCount := deprecationCount i |}.

Definition init : t :=
  {| connection := None; storage := {| connectionName := "" |};
     subscribers := ∅; deprecationCount := 0 |}.

(** [getSubscribers] hands out the [Map] object of the event, creating
    it on first use.  The object is shared: a write through the result
    is a write to [subscribers !! event], which is how [theSubscribers]
    and [putSubscribers] are used below. *)
Definition theSubscribers (event : IBMiEvent) (i : t) : SubscriptionMap :=
  default [] (subscribers i !! event).

Definition getSubscribers (event : IBMiEvent) (i : t) : SubscriptionMap * t :=
  let eventSubscribers := theSubscribers event i in
  (eventSubscribers,
   if bool_decide (is_Some (subscribers i !! event)) then i
   else withSubscribers (<[event := eventSubscribers]> (subscribers i)) i).

Definition putSubscribers (event : IBMiEvent) (m : SubscriptionMap) (i : t) : t :=
  withSubscribers (<[event := m]> (subscribers i)) i.

Definition subscriptionKey (context : Vscode.ExtensionContext) (name : string) : string :=
  Vscode.id (Vscode.extension context) +:+ " - " +:+ name.

Definition subscribe (context : Vscode.ExtensionContext) (event : IBMiEvent) (name : string)
    (f : Func) (transient : option bool) (i : t) : t :=
  let '(eventSubscribers, i1) := getSubscribers event i in
  putSubscribers event
    (JsMap.set (subscriptionKey context name) {| func := f; transient := transient |}
       eventSubscribers) i1.

Definition deprecatedKey (fname : string) (count : nat) : string :=
  "deprecated - " +:+ (if bool_decide (fname = "") then "unknown" else fname)
    +:+ "_" +:+ pretty count.

Definition deprecationWarning : string :=
  "[Code for IBM i] Deprecation warning: you are using Instance::onEvent which is deprecated and will be removed in v3.0.0. Please use Instance::subscribe instead.".

Definition onEvent (event : IBMiEvent) (f : Func) (i : t) : t * list LogEntry :=
  let '(eventSubscribers, i1) := getSubscribers event i in
  let key := deprecatedKey (funcName f) (deprecationCount i1) in
  let i2 := {| connection := connection i1; storage := storage i1;
               subscribers := subscribers i1;
               deprecationCount := S (deprecationCount i1) |} in
  (putSubscribers event
     (JsMap.set key {| func := f; transient := None |} eventSubscribers) i2,
   [ConsoleWarn deprecationWarning]).

(** Running [await callable.func()]: the registry calls of the body, in
    order, then the outcome. *)
Definition applyCall (c : RegistryCall Func) (i : t) : t * list LogEntry :=
  match c with
  | CallSubscribe extensionId event name f transient =>
      (subscribe (Vscode.ofId extensionId) event name f transient i, [])
  | CallOnEvent event f => onEvent event f i
  end.

Fixpoint applyCalls (cs : list (RegistryCall Func)) (i : t) : t * list LogEntry :=
  match cs with
  | [] => (i, [])
  | c :: cs' =>
      let '(i1, l1) := applyCall c i in
      let '(i2, l2) := applyCalls cs' i1 in
      (i2, l1 ++ l2)
  end.

Definition failedMessage (event : IBMiEvent) (identity : string) : string :=
  event +:+ " event function " +:+ identity +:+ " failed".

Definition isTransient (callable : IBMiEventSubscription) : bool :=
  match transient callable with Some true => true | _ => false end.

(** What the console shows once the awaited call has settled:
    [console.timeEnd] at the end of the [try], or [console.error] in the
    [catch]. *)
Definition settled (event : IBMiEvent) (identity : string) (f : Func) : LogEntry :=
  match funcOutcome f with
  | Returns => ConsoleTimeEnd identity
  | Throws => ConsoleError (failedMessage event identity)
  end.

(** One turn of the [for ... of eventSubscribers.entries()] loop on the
    record [(identity, callable)]: the [try], the [catch] and the
    [finally]. *)
Definition loopBody (event : IBMiEvent) (identity : string)
    (callable : IBMiEventSubscription) (i : t) : t * list LogEntry :=
  let '(i1, l1) := applyCalls (funcBody (func callable)) i in
  let i2 :=
    if isTransient callable
    then putSubscribers event (JsMap.delete identity (theSubscribers event i1)) i1
    else i1 in
  (i2, [ConsoleTime identity; Invoke identity (func callable)] ++ l1 ++
       [settled event identity (func callable)]).

(** The iterator, as an [index] into the shared [Map]'s records. *)
Fixpoint processLoop (fuel : nat) (event : IBMiEvent) (index : nat) (i : t)
    : option (t * list LogEntry) :=
  match fuel with
  | 0 => None
  | S fuel' =>
      match theSubscribers event i !! index with
      | None => Some (i, [])
      | Some None => processLoop fuel' event (S index) i
      | Some (Some (key, callable)) =>
          let '(i1, l1) := loopBody event key callable i in
          match processLoop fuel' event (S index) i1 with
          | Some (i2, l2) => Some (i2, l1 ++ l2)
          | None => None
          end
      end
  end.

(** A bound on the turns of the loop: every record still ahead of the
    iterator costs one turn, plus the turns of whatever its handler may
    register. *)
Fixpoint weight (f : Func) : nat :=
  match f with
  | Fn _ body _ =>
      list_sum (map (fun c =>
                       match c with
                       | CallSubscribe _ _ _ g _ => S (weight g)
                       | CallOnEvent _ g => S (weight g)
                       end) body)
  end.

Definition callWeight (c : RegistryCall Func) : nat :=
  match c with
  | CallSubscribe _ _ _ g _ => S (weight g)
  | CallOnEvent _ g => S (weight g)
  end.

Definition cost (s : option (JsMap.entry IBMiEventSubscription)) : nat :=
  match s with
  | None => 1
  | Some (_, callable) => S (weight (func callable))
  end.

Definition turns (m : SubscriptionMap) : nat := list_sum (map cost m).

(** [processEvent], with the turns counted on the collection as it stands
    when the event arrives; the count is enough for the loop to come to its
    end, whatever the handlers register meanwhile. *)
Definition processEvent (event : IBMiEvent) (i : t) : option (t * list LogEntry) :=
  let '(eventSubscribers, i0) := getSubscribers event i in
  match processLoop (S (turns eventSubscribers)) event 0 i0 with
  | Some (i1, l) => Some (i1, [ConsoleTime event] ++ l ++ [ConsoleTimeEnd event])
  | None => None
  end.

(** *** [processEvent] step by step

    [processEvent] is an [async] function, and [fire] does not wait for
    it: the call the emitter makes runs it up to its first [await] and
    returns.  The [await] suspends it whenever [callable.func()] hands back
    a value or a promise; a call that throws before it hands anything back
    goes on to the [catch] at once.  [rejects f] tells, of a handler [f]
    that throws, whether it does so by rejecting the promise it handed
    back. *)
Definition suspends (rejects : Func → bool) (f : Func) : bool :=
  match funcOutcome f with
  | Returns => true
  | Throws => rejects f
  end.

(** A [processEvent] that stands at the [await] of the record at
    [atIndex], with [identity] and [callable] as the iterator gave them. *)
Record Suspended : Type := {
  atEvent : IBMiEvent;
  atIndex : nat;
  atIdentity : string;
  atCallable : IBMiEventSubscription
}.

(** The [try] up to the [await]: the timer is started and the handler is
    called.  As in [loopBody], what the handler does to the registry is
    done when it is called. *)
Definition call (identity : string) (callable : IBMiEventSubscription) (i : t)
    : t * list LogEntry :=
  let '(i1, l1) := applyCalls (funcBody (func callable)) i in
  (i1, [ConsoleTime identity; Invoke identity (func callable)] ++ l1).

(** What follows the [await] once the call has settled: the end of the
    [try] or the [catch], and the [finally]. *)
Definition afterAwait (event : IBMiEvent) (identity : string)
    (callable : IBMiEventSubscription) (i : t) : t * list LogEntry :=
  (if isTransient callable
   then putSubscribers event (JsMap.delete identity (theSubscribers event i)) i
   else i,
   [settled event identity (func callable)]).

(** The loop from [index] up to its next [await], or to its end; the
    turns are counted as for [processLoop]. *)
Fixpoint upToAwait (rejects : Func → bool) (fuel : nat) (event : IBMiEvent)
    (index : nat) (i : t) : option (t * list LogEntry * option Suspended) :=
  match fuel with
  | 0 => None
  | S fuel' =>
      match theSubscribers event i !! index with
      | None => Some (i, [ConsoleTimeEnd event], None)
      | Some None => upToAwait rejects fuel' event (S index) i
      | Some (Some (key, callable)) =>
          if suspends rejects (func callable) then
            let '(i1, l1) := call key callable i in
            Some (i1, l1,
                  Some {| atEvent := event; atIndex := index; atIdentity := key;
                          atCallable := callable |})
          else
            let '(i1, l1) := loopBody event key callable i in
            match upToAwait rejects fuel' event (S index) i1 with
            | Some (i2, l2, s) => Some (i2, l1 ++ l2, s)
            | None => None
            end
      end
  end.

(** The part of [processEvent] that runs inside [fire]. *)
Definition begin (rejects : Func → bool) (event : IBMiEvent) (i : t)
    : option (t * list LogEntry * option Suspended) :=
  let '(eventSubscribers, i0) := getSubscribers event i in
  match upToAwait rejects (S (turns eventSubscribers)) event 0 i0 with
  | Some (i1, l, s) => Some (i1, [ConsoleTime event] ++ l, s)
  | None => None
  end.

(** The part that runs when the awaited call has settled, up to the next
    [await] or to the end. *)
Definition resume (rejects : Func → bool) (s : Suspended) (i : t)
    : option (t * list LogEntry * option Suspended) :=
  let '(i1, l1) := afterAwait (atEvent s) (atIdentity s) (atCallable s) i in
  match upToAwait rejects
          (S (turns (drop (S (atIndex s)) (theSubscribers (atEvent s) i1))))
          (atEvent s) (S (atIndex s)) i1 with
  | Some (i2, l2, s') => Some (i2, l1 ++ l2, s')
  | None => None
  end.

(** *** The orchestrator

    [World] is the [Instance] object together with the static
    [IBMi.GlobalStorage] and the supply of fresh [new IBMi()] objects. *)
Record World : Type := {
  self : t;
  GlobalStorage : CodeForIStorage;
  handles : nat
}.

Definition start : World :=
  {| self := init; GlobalStorage := {| lastConnection := "" |}; handles := 0 |}.

Definition getConnection (w : World) : option Handle := connection (self w).

Definition observe (w : World) : Observed :=
  {| seenConnection := connection (self w);
     seenConnectionName := connectionName (storage (self w));
     seenLastConnection := getLastConnection (GlobalStorage w) |}.

(** [fire] hands the event to the emitter, whose one listener is
    [processEvent]; nobody awaits the listener's promise, so here the
    hand-over is an effect and [processEvent] is a function of its own. *)
Definition fire (event : IBMiEvent) (w : World) : list Effect :=
  [Fire event (observe w)].

Definition install (c : option Handle) (connName : string) (w : World) : World :=
  {| self := {| connection := c;
                storage := setConnectionName connName (storage (self w));
                subscribers := subscribers (self w);
                deprecationCount := deprecationCount (self w) |};
     GlobalStorage := GlobalStorage w;
     handles := handles w |}.

Definition storeLast (connName : string) (w : World) : World :=
  {| self := self w;
     GlobalStorage := setLastConnection connName (GlobalStorage w);
     handles := handles w |}.

Definition disposeCurrent (w : World) : list Effect :=
  match connection (self w) with
  | Some old => [Dispose old]
  | None => []
  end.

(** [setConnection] after the [dispose] of the handle it replaces. *)
Definition setConnectionRest (c : option Handle) (w : World) : World * list Effect :=
  match c with
  | Some h =>
      let connName := currentConnectionName h in
      let w1 := storeLast connName (install (Some h) connName w) in
      (w1,
       [SetDisconnectedCallback h; Install (Some h); StoreConnectionName connName;
        StoreLastConnection connName] ++ fire "connected" w1 ++
       [SetContext "code-for-ibmi:connected" true])
  | None =>
      (install None "" w,
       [Install None; StoreConnectionName ""; SetContext "code-for-ibmi:connected" false])
  end.

Definition setConnection (c : option Handle) (w : World) : World * list Effect :=
  let '(w1, t1) := setConnectionRest c w in
  (w1, disposeCurrent w ++ t1).

Definition refreshCommands : list Effect :=
  [ExecuteCommand "code-for-ibmi.refreshObjectBrowser";
   ExecuteCommand "code-for-ibmi.refreshLibraryListView";
   ExecuteCommand "code-for-ibmi.refreshIFSBrowser"].

Definition disconnect (w : World) : World * list Effect :=
  let '(w1, t1) := setConnection None w in
  (w1, t1 ++ refreshCommands).

(** The callback [setConnection] puts on a handle:
    [this.setConnection(); this.fire(`disconnected`)].  The call of
    [setConnection] is not awaited, so it runs up to its first [await]
    (the [dispose] of the current handle if there is one, else the
    [setContext] command), the event is fired, and the rest of
    [setConnection] follows. *)
Definition disconnectedCallback (w : World) : World * list Effect :=
  let '(w1, t1) := setConnectionRest None w in
  match connection (self w) with
  | Some _ => (w1, disposeCurrent w ++ fire "disconnected" w ++ t1)
  | None => (w1, t1 ++ fire "disconnected" w1)
  end.

Definition newline : string := String "010"%char "".

Definition retryDetail (customError : option string) : string :=
  "Reconnection has failed. Would you like to try again?" +:+ newline +:+ newline +:+
  match customError with
  | Some m => if bool_decide (m = "") then "No error provided." else m
  | None => "No error provided."
  end.

Definition setReconnecting (options : ConnectionOptions) : ConnectionOptions :=
  {| data := data options; reconnecting := Some true;
     reloadServerSettings := reloadServerSettings options |}.

(** The [while (true)] of [connect].  The script gives one [Attempt] per
    turn; the loop asks for a further turn only after the user pressed
    [Yes], so a script that ends before the loop does yields [None].
    [afterTry] is the turn from [if (result.success)] on; the [match] is
    the [try] and its [catch], where [customError = e.message] throws when
    [e] is [null] or [undefined]: nothing catches that, and [connect]
    ends there. *)
Fixpoint connectLoop (script : list Attempt) (options : ConnectionOptions)
    (conn : Handle) (w : World) : option (Completion * World * list Effect) :=
  match script with
  | [] => None
  | a :: script' =>
      let call := ConnectCall conn (reconnecting options) (reloadServerSettings options) in
      let afterTry (result : ConnectionResult) (customError : option string) :=
        if success result then
          let '(w1, t1) := setConnection (Some conn) w in
          Some (Returned result, w1, call :: t1)
        else
          let '(w1, t1) := disconnect w in
          if truthy (reconnecting options) then
            let ask := ShowWarningMessage "Could not reconnect" (retryDetail customError) in
            if retry a then
              match connectLoop script' (setReconnecting options) conn w1 with
              | Some (c, w2, t2) => Some (c, w2, call :: t1 ++ [ask] ++ t2)
              | None => None
              end
            else Some (Returned result, w1, call :: t1 ++ [ask])
          else Some (Returned result, w1, call :: t1) in
      match outcome a with
      | Fulfilled r => afterTry r None
      | Rejected m => afterTry {| success := false; error := None |} (Some m)
      | RejectedNullish => Some (Threw, w, [call])
      end
  end.

(** [connect].  The handle made by [new IBMi()] takes its
    [currentConnectionName] from [options.data] inside
    [connection.connect], which is not under src/; the model gives the
    name to the handle at once.  [withContext] and [withProgress] run
    their task and hand back its result, or what it throws.  The call
    [connection.dispose()] after the loop is not awaited: [Dispose conn] is
    that call, made before the result is handed back. *)
Definition connect (options : ConnectionOptions) (script : list Attempt) (w : World)
    : option (Completion * World * list Effect) :=
  let conn := {| handleId := handles w; currentConnectionName := name (data options) |} in
  let w0 := {| self := self w; GlobalStorage := GlobalStorage w; handles := S (handles w) |} in
  match connectLoop script options conn w0 with
  | Some (Returned result, w1, t1) =>
      Some (Returned result, w1,
            [OutputClear] ++ t1 ++ (if success result then [] else [Dispose conn]))
  | Some (Threw, w1, t1) => Some (Threw, w1, [OutputClear] ++ t1)
  | None => None
  end.

End Instance.

(** ** [disconnect] of instantiate.ts *)
Module Instantiate.

Definition connectionBacked (document : Vscode.TextDocument) : bool :=
  negb (Vscode.isClosed document) &&
  bool_decide (Vscode.scheme document ∈ ["member"; "streamfile"]).

(** The [for] loop over [vscode.workspace.textDocuments], threading
    [doDisconnect]. *)
Fixpoint documentsLoop (textDocuments : list Vscode.TextDocument) (doDisconnect : bool)
    : bool * list Effect :=
  match textDocuments with
  | [] => (doDisconnect, [])
  | document :: rest =>
      let '(here, doDisconnect1) :=
        if connectionBacked document then
          if Vscode.isDirty document then
            if doDisconnect then
              ([ShowErrorMessage "Cannot disconnect while files have not been saved.";
                ShowTextDocument document], false)
            else ([], doDisconnect)
          else
            ([ShowTextDocument document;
              ExecuteCommand "workbench.action.closeActiveEditor"], doDisconnect)
        else ([], doDisconnect) in
      let '(final, later) := documentsLoop rest doDisconnect1 in
      (final, ConsoleLog document :: here ++ later)
  end.

Definition disconnect (textDocuments : list Vscode.TextDocument) (instance : Instance.t)
    : bool * Instance.t * list Effect :=
  let '(doDisconnect, t1) := documentsLoop textDocuments true in
  if doDisconnect then
    match Instance.connection instance with
    | Some connection =>
        (doDisconnect,
         {| Instance.connection := None;
            Instance.storage := Instance.storage instance;
            Instance.subscribers := Instance.subscribers instance;
            Instance.deprecationCount := Instance.deprecationCount instance |},
         t1 ++ [End_ connection])
    | None => (doDisconnect, instance, t1)
    end
  else (doDisconnect, instance, t1).

End Instantiate.

(** ** Reading a log and a collection *)

Definition invocation (e : LogEntry) : option (string * Func) :=
  match e with
  | Invoke identity f => Some (identity, f)
  | _ => None
  end.

(** The handlers a log shows as called, in order, each under its key. *)
Definition invocations (log : list LogEntry) : list (string * Func) :=
  omap invocation log.

Definition invokedKeys (log : list LogEntry) : list string := (invocations log).*1.

(** The turn of a record whose handler is quiet. *)
Definition entryLog (event : IBMiEvent) (e : JsMap.entry IBMiEventSubscription)
    : list LogEntry :=
  [ConsoleTime e.1; Invoke e.1 (func e.2); Instance.settled event e.1 (func e.2)].

Definition called (e : JsMap.entry IBMiEventSubscription) : string * Func :=
  (e.1, func e.2).

(** The transient-removal rule on one record. *)
Definition expire (s : option (JsMap.entry IBMiEventSubscription))
    : option (JsMap.entry IBMiEventSubscription) :=
  match s with
  | Some (k, callable) => if Instance.isTransient callable then None else s
  | None => None
  end.

Definition allQuiet (m : JsMap.t IBMiEventSubscription) : Prop :=
  Forall (λ e : JsMap.entry IBMiEventSubscription, quiet (func e.2)) (JsMap.entries m).

(** The arguments of one [subscribe] call on a given event. *)
Record Subscription : Type := {
  subContext : Vscode.ExtensionContext;
  subName : string;
  subFunc : Func;
  subTransient : option bool
}.

Definition subKey (c : Subscription) : string :=
  Instance.subscriptionKey (subContext c) (subName c).


Definition subscribeAll (event : IBMiEvent) (calls : list Subscription) (i : Instance.t)
    : Instance.t :=
  foldl (λ i c, Instance.subscribe (subContext c) event (subName c) (subFunc c)
                  (subTransient c) i) i calls.

(** What one fire shows when no handler touches the registry. *)
Definition fireLog (event : IBMiEvent) (m : JsMap.t IBMiEventSubscription)
    : list LogEntry :=
  [ConsoleTime event] ++ flat_map (entryLog event) (JsMap.entries m)
    ++ [ConsoleTimeEnd event].

(** [n] fires of one event, each begun when [processEvent] has come to
    the end of the one before; the logs, first fire first.  ([fire] itself
    waits for nothing: for fires that overlap see [run] below.) *)
Fixpoint fires (n : nat) (event : IBMiEvent) (i : Instance.t)
    : option (Instance.t * list (list LogEntry)) :=
  match n with
  | 0 => Some (i, [])
  | S n' =>
      match Instance.processEvent event i with
      | Some (i1, l) =>
          match fires n' event i1 with
          | Some (i2, ls) => Some (i2, l :: ls)
          | None => None
          end
      | None => None
      end
  end.

(** *** Fires that overlap

    What happens on the one thread, in order: [fire] hands an event to the
    emitter, and a [processEvent] begins; or the call that the [n]-th
    [processEvent] awaits settles, and that [processEvent] goes on.  The
    surroundings decide the order; [fire(e); fire(e)] is
    [[Emit e; Emit e]] followed by the two settlements. *)
Inductive Step : Type :=
  | Emit (event : IBMiEvent)
  | Settle (n : nat).

(** The registry, the [processEvent] calls made so far ([None] once one
    has come to its end), and the console. *)
Record Running : Type := {
  registry : Instance.t;
  listeners : list (option Instance.Suspended);
  console : list LogEntry
}.

Definition starting (i : Instance.t) : Running :=
  {| registry := i; listeners := []; console := [] |}.

Definition step (rejects : Func → bool) (st : Step) (r : Running) : option Running :=
  match st with
  | Emit event =>
      match Instance.begin rejects event (registry r) with
      | Some (i1, l, s) =>
          Some {| registry := i1; listeners := listeners r ++ [s];
                  console := console r ++ l |}
      | None => None
      end
  | Settle n =>
      match listeners r !! n with
      | Some (Some s) =>
          match Instance.resume rejects s (registry r) with
          | Some (i1, l, s') =>
              Some {| registry := i1; listeners := <[n := s']> (listeners r);
                      console := console r ++ l |}
          | None => None
          end
      | _ => None
      end
  end.

Fixpoint run (rejects : Func → bool) (schedule : list Step) (r : Running)
    : option Running :=
  match schedule with
  | [] => Some r
  | st :: schedule' =>
      match step rejects st r with
      | Some r1 => run rejects schedule' r1
      | None => None
      end
  end.

(** One turn of the loop as the console shows it: the timer is started,
    the handler is called, the warnings of its [onEvent] calls follow, and
    the call settles. *)
Definition turnLog (event : IBMiEvent) (t : string * Func * list string)
    : list LogEntry :=
  [ConsoleTime t.1.1; Invoke t.1.1 t.1.2] ++ (ConsoleWarn <$> t.2)
    ++ [Instance.settled event t.1.1 t.1.2].

(** A log in which every call has settled before the next call is made. *)
Definition sequential (event : IBMiEvent) (log : list LogEntry) : Prop :=
  ∃ ts, log = [ConsoleTime event] ++ flat_map (turnLog event) ts
                ++ [ConsoleTimeEnd event].

(** ** Concrete registries

    The scenario of the specification (a lasting and a transient
    subscription on [connected]) and a handler that subscribes another
    one while it is being called. *)
Module Scenario.
Definition f1 : Func := Fn "f1" [] Returns.
Definition f2 : Func := Fn "f2" [] Throws.

Definition refresh : Subscription :=
  {| subContext := Vscode.ofId "ext.a"; subName := "refresh";
     subFunc := f1; subTransient := None |}.

Definition notify : Subscription :=
  {| subContext := Vscode.ofId "ext.b"; subName := "notify";
     subFunc := f2; subTransient := Some true |}.

Definition registered : Instance.t :=
  subscribeAll "connected" [refresh; notify] Instance.init.

Definition late : Func := Fn "late" [] Returns.

Definition first : Func :=
  Fn "first" [CallSubscribe "ext.a" "connected" "late" late None] Returns.

Definition reentrant : Instance.t :=
  Instance.subscribe (Vscode.ofId "ext.a") "connected" "first" first None Instance.init.

(** A lone transient subscription whose handler returns. *)
Definition welcome : Instance.t :=
  Instance.subscribe (Vscode.ofId "ext.b") "connected" "welcome" f1 (Some true)
    Instance.init.

Definition one : Func :=
  Fn "one" [CallSubscribe "ext.a" "connected" "zero" late None] Returns.

Definition overwriting : Instance.t :=
  Instance.subscribe (Vscode.ofId "ext.a") "connected" "one" one None
    (Instance.subscribe (Vscode.ofId "ext.a") "connected" "zero" f1 None Instance.init).

Definition old : Func := Fn "old" [CallOnEvent "connected" f1] Returns.

Definition migrating : Instance.t :=
  Instance.subscribe (Vscode.ofId "ext.a") "connected" "old" old None Instance.init.

Definition options : ConnectionOptions :=
  {| data := {| name := "dev"; host := "ibmi.example.com"; port := 22;
                username := "qsecofr" |};
     reconnecting := None; reloadServerSettings := None |}.

Definition succeeds : Attempt :=
  {| outcome := Fulfilled {| success := true; error := None |}; retry := false |}.

Definition throws : Attempt :=
  {| outcome := Rejected "Timed out while waiting for handshake"; retry := false |}.


Definition editedMember : Vscode.TextDocument :=
  {| Vscode.scheme := "member"; Vscode.isClosed := false;
     Vscode.isDirty := true |}.
End Scenario.

(** ** Keys

    [lacks c s]: the character [c] does not occur in [s]. *)
Fixpoint lacks (c : ascii) (s : string) : Prop :=
  match s with
  | EmptyString => True
  | String a s' => a ≠ c ∧ lacks c s'
  end.

(** The identifier VS Code gives an extension has the form
    [publisher.name]: a dot, and no blank. *)
Definition canonicalId (extensionId : string) : Prop :=
  lacks " " extensionId ∧ ¬ lacks "." extensionId.

(** No key of the registry is a key that a later [onEvent] will make. *)
Definition deprecatedFresh (i : Instance.t) : Prop :=
  ∀ ev k fname n,
    k ∈ JsMap.keys (Instance.theSubscribers ev i) →
    k = Instance.deprecatedKey fname n →
    n < Instance.deprecationCount i.

(** A registry as the interface makes it: the one of a new [Instance];
    then [subscribe] by extensions with canonical identifiers, [onEvent],
    fires of collections of quiet handlers, and whatever the orchestrator
    does to the other fields. *)
Inductive built : Instance.t → Prop :=
  | built_init : built Instance.init
  | built_subscribe extensionId ev nm f tr i :
      canonicalId extensionId → built i →
      built (Instance.subscribe (Vscode.ofId extensionId) ev nm f tr i)
  | built_onEvent ev f i : built i → built (Instance.onEvent ev f i).1
  | built_fire ev i i' log :
      built i → allQuiet (Instance.theSubscribers ev i) →
      Instance.processEvent ev i = Some (i', log) → built i'
  | built_fields c s i :
      built i →
      built {| Instance.connection := c; Instance.storage := s;
               Instance.subscribers := Instance.subscribers i;
               Instance.deprecationCount := Instance.deprecationCount i |}.

(** ** Reading the effects of the orchestrator *)

Definition isFire (event : IBMiEvent) (e : Effect) : bool :=
  match e with
  | Fire event' _ => bool_decide (event' = event)
  | _ => false
  end.

(** How many times [event] is handed to the emitter. *)
Definition fired (event : IBMiEvent) (tr : list Effect) : nat :=
  length (filter (λ e, isFire event e = true) tr).



(** An attempt that is rejected with [null] or [undefined]. *)
Definition nullish (a : Attempt) : bool :=
  match outcome a with
  | RejectedNullish => true
  | _ => false
  end.

(** An attempt that is fulfilled, or rejected with a value. *)
Definition valued (a : Attempt) : Prop := nullish a = false.

(** The result the loop of [connect] reads off an attempt: a rejected
    [connection.connect] counts as [{ success: false }].  (On a nullish
    rejection the loop reads no result; the value here is never used.) *)
Definition attemptResult (a : Attempt) : ConnectionResult :=
  match outcome a with
  | Fulfilled r => r
  | Rejected _ | RejectedNullish => {| success := false; error := None |}
  end.


(** An attempt after which the loop asks for no further one, whatever the
    options: the connection stands, or the user does not press [Yes]. *)
Definition lastTurn (a : Attempt) : Prop :=
  success (attemptResult a) = true ∨ retry a = false.

(** A script on which the loop of [connect] comes to its end: some
    attempt is a last turn, or the options ask for no reconnection, so that
    no dialog is shown after the first attempt. *)
Definition ending (options : ConnectionOptions) (script : list Attempt) : Prop :=
  Exists lastTurn script ∨ (truthy (reconnecting options) = false ∧ script ≠ []).

(** The handle [connect] makes in world [w]. *)
Definition newHandle (options : ConnectionOptions) (w : Instance.World) : Handle :=
  {| handleId := Instance.handles w; currentConnectionName := name (data options) |}.

(** An open document of the connection with changes not saved. *)
Definition unsaved (document : Vscode.TextDocument) : bool :=
  Instantiate.connectionBacked document && Vscode.isDirty document.

Definition isNotice (e : Effect) : bool :=
  match e with
  | ShowErrorMessage _ => true
  | _ => false
  end.

Definition notices (tr : list Effect) : list Effect :=
  filter (λ e, isNotice e = true) tr.

Definition isEnd (e : Effect) : bool :=
  match e with
  | End_ _ => true
  | _ => false
  end.

Definition ends (tr : list Effect) : list Effect :=
  filter (λ e, isEnd e = true) tr.

(** An effect that neither hands [connected] to the emitter nor makes
    [conn] the current handle. *)
Definition plain (conn : Handle) (e : Effect) : Prop :=
  (∀ seen, e ≠ Fire "connected" seen) ∧ e ≠ Install (Some conn).

(** What a run of effects [tr] from world [w] to world [w'] has done when
    it has made [conn] the current connection: [connected] is fired once;
    [conn] is the current handle and its name is in both stores, at the end
    and already at the instant the event is fired; and the handle that was
    current in [w] is disposed before [conn] is installed. *)
Definition connectedBy (conn : Handle) (w w' : Instance.World) (tr : list Effect) : Prop :=
  fired "connected" tr = 1 ∧
  Instance.getConnection w' = Some conn ∧
  getLastConnection (Instance.GlobalStorage w') = currentConnectionName conn ∧
  connectionName (Instance.storage (Instance.self w')) = currentConnectionName conn ∧
  (∀ seen, Fire "connected" seen ∈ tr →
     seenConnection seen = Some conn ∧
     seenLastConnection seen = currentConnectionName conn ∧
     seenConnectionName seen = currentConnectionName conn) ∧
  ∃ before after,
    tr = before ++ Install (Some conn) :: after ∧
    (Install (Some conn) ∉ before) ∧
    ∀ old, Instance.getConnection w = Some old → Dispose old ∈ before.

(** ** Reading more off a log and a registry *)

(** Two registries that a fire of [event] cannot tell apart: the same
    collection for the event, and the same deprecation counter. *)
Definition alike (event : IBMiEvent) (i j : Instance.t) : Prop :=
  Instance.theSubscribers event i = Instance.theSubscribers event j ∧
  Instance.deprecationCount i = Instance.deprecationCount j.

Definition warning (e : LogEntry) : option string :=
  match e with
  | ConsoleWarn message => Some message
  | _ => None
  end.

(** The [console.warn] lines of a log. *)
Definition warnings (log : list LogEntry) : list string := omap warning log.

Definition isOnEventCall (c : RegistryCall Func) : bool :=
  match c with
  | CallOnEvent _ _ => true
  | CallSubscribe _ _ _ _ _ => false
  end.

(** How many times a handler calls [onEvent] while it runs. *)
Definition onEventCalls (f : Func) : nat :=
  length (filter (λ c, isOnEventCall c = true) (funcBody f)).

Definition errorLine (e : LogEntry) : option string :=
  match e with
  | ConsoleError message => Some message
  | _ => None
  end.

(** The [console.error] lines of a log. *)
Definition errorLines (log : list LogEntry) : list string := omap errorLine log.

Definition timerStart (e : LogEntry) : option string :=
  match e with
  | ConsoleTime label => Some label
  | _ => None
  end.

Definition timerEnd (e : LogEntry) : option string :=
  match e with
  | ConsoleTimeEnd label => Some label
  | _ => None
  end.

(** The labels given to [console.time] and to [console.timeEnd]. *)
Definition timersStarted (log : list LogEntry) : list string := omap timerStart log.
Definition timersEnded (log : list LogEntry) : list string := omap timerEnd log.

Definition returns (f : Func) : bool :=
  match funcOutcome f with
  | Returns => true
  | Throws => false
  end.

(** The keys under which a log shows a call that returned, and a call
    that threw. *)
Definition returned (log : list LogEntry) : list string :=
  (filter (λ p : string * Func, returns p.2 = true) (invocations log)).*1.

Definition thrown (log : list LogEntry) : list string :=
  (filter (λ p : string * Func, returns p.2 = false) (invocations log)).*1.

(** A handler that makes no transient subscription, and subscribes no
    handler that does. *)
Fixpoint lasting (f : Func) : Prop :=
  match f with
  | Fn _ body _ =>
      foldr and True
        (map (fun c =>
                match c with
                | CallSubscribe _ _ _ g transient => truthy transient = false ∧ lasting g
                | CallOnEvent _ g => lasting g
                end) body)
  end.

Definition lastingCall (c : RegistryCall Func) : Prop :=
  match c with
  | CallSubscribe _ _ _ g transient => truthy transient = false ∧ lasting g
  | CallOnEvent _ g => lasting g
  end.

(** A collection in which no subscription is transient and every handler
    is lasting. *)
Definition allLasting (m : JsMap.t IBMiEventSubscription) : Prop :=
  Forall (λ e : JsMap.entry IBMiEventSubscription,
            Instance.isTransient e.2 = false ∧ lasting (func e.2))
    (JsMap.entries m).

(** ** Reading more off the effects of the orchestrator *)

Definition connectCall (e : Effect) : option (Handle * option bool * option bool) :=
  match e with
  | ConnectCall h reconnecting reloadServerSettings =>
      Some (h, reconnecting, reloadServerSettings)
  | _ => None
  end.

(** The calls of [connection.connect]: the handle, and the two flags
    passed on from the options. *)
Definition connectCalls (tr : list Effect) : list (Handle * option bool * option bool) :=
  omap connectCall tr.

Definition isDialog (e : Effect) : bool :=
  match e with
  | ShowWarningMessage _ _ => true
  | _ => false
  end.

Definition dialogs (tr : list Effect) : list Effect :=
  filter (λ e, isDialog e = true) tr.

Definition contextValue (e : Effect) : option bool :=
  match e with
  | SetContext key value =>
      if bool_decide (key = "code-for-ibmi:connected") then Some value else None
  | _ => None
  end.

(** The value the context key [code-for-ibmi:connected] is left with. *)
Definition connectedContext (tr : list Effect) : option bool :=
  last (omap contextValue tr).

(** The message a rejected [connection.connect] leaves in [customError]. *)
Definition customErrorOf (a : Attempt) : option string :=
  match outcome a with
  | Rejected m => Some m
  | Fulfilled _ | RejectedNullish => None
  end.

(** A failed attempt that the user answers with [Yes]. *)
Definition retried (a : Attempt) : Prop :=
  success (attemptResult a) = false ∧ retry a = true.

(** The connection storage names the current connection, and so does
    the global record while there is one; the current handle is one that
    [connect] has made. *)
Definition inSync (w : Instance.World) : Prop :=
  match Instance.getConnection w with
  | Some h =>
      connectionName (Instance.storage (Instance.self w)) = currentConnectionName h ∧
      getLastConnection (Instance.GlobalStorage w) = currentConnectionName h ∧
      handleId h < Instance.handles w
  | None => connectionName (Instance.storage (Instance.self w)) = ""
  end.

(** The worlds the orchestrator gets to: from a new [Instance], by
    [connect], by [disconnect], by the callback of a lost connection, and
    by whatever is done to the registry meanwhile. *)
Inductive reachable : Instance.World → Prop :=
  | reachable_start : reachable Instance.start
  | reachable_connect options script w c w' tr :
      reachable w → Instance.connect options script w = Some (c, w', tr) → reachable w'
  | reachable_disconnect w : reachable w → reachable (Instance.disconnect w).1
  | reachable_lost w : reachable w → reachable (Instance.disconnectedCallback w).1
  | reachable_registry s n w :
      reachable w →
      reachable
        {| Instance.self :=
             {| Instance.connection := Instance.connection (Instance.self w);
                Instance.storage := Instance.storage (Instance.self w);
                Instance.subscribers := s; Instance.deprecationCount := n |};
           Instance.GlobalStorage := Instance.GlobalStorage w;
           Instance.handles := Instance.handles w |}.

(** A reconnection that fails once, is tried again on the user's [Yes],
    and then succeeds. *)
Module Reconnect.
Definition options : ConnectionOptions :=
  {| data := data Scenario.options; reconnecting := Some true;
     reloadServerSettings := Some false |}.

Definition again : Attempt :=
  {| outcome := Rejected "Timed out while waiting for handshake"; retry := true |}.

Definition script : list Attempt := [again; Scenario.succeeds].
End Reconnect.

(** ** Reading more off the effects of [disconnect] of instantiate.ts *)

Definition loggedDocument (e : Effect) : option Vscode.TextDocument :=
  match e with
  | ConsoleLog document => Some document
  | _ => None
  end.

(** The documents handed to [console.log]. *)
Definition logged (tr : list Effect) : list Vscode.TextDocument := omap loggedDocument tr.

Definition shownDocument (e : Effect) : option Vscode.TextDocument :=
  match e with
  | ShowTextDocument document => Some document
  | _ => None
  end.

(** The documents handed to [showTextDocument]. *)
Definition shown (tr : list Effect) : list Vscode.TextDocument := omap shownDocument tr.

Definition isClose (e : Effect) : bool :=
  match e with
  | ExecuteCommand command => bool_decide (command = "workbench.action.closeActiveEditor")
  | _ => false
  end.

(** For each [workbench.action.closeActiveEditor] command, the document
    shown by the call just before it, if that call was a
    [showTextDocument]. *)
Fixpoint closedAfter (previous : option Effect) (tr : list Effect)
    : list (option Vscode.TextDocument) :=
  match tr with
  | [] => []
  | e :: tr' =>
      (if isClose e
       then [match previous with
             | Some (ShowTextDocument document) => Some document
             | _ => None
             end]
       else []) ++ closedAfter (Some e) tr'
  end.

Definition closedDocuments (tr : list Effect) : list (option Vscode.TextDocument) :=
  closedAfter None tr.

(** An open document of the connection with nothing to save. *)
Definition saved (document : Vscode.TextDocument) : bool :=
  Instantiate.connectionBacked document && negb (Vscode.isDirty document).

(** ** [setupEmitter] of instantiate.ts

    The emitter of the earlier interface: [instance.events] is an array
    of [{ event, func }] records, and the one listener calls, for an event
    [e], the [func] of every record whose [event] is [e]. *)
Module Legacy.

Record Registration : Type := { event : IBMiEvent; func : Func }.

(** [runEvents.forEach(event => event.func())].  The call is not awaited
    and nothing catches what it throws, so a call that throws ends the
    loop.  The outcome of a [Func] is read here as the outcome of the call
    itself. *)
Fixpoint forEach (runEvents : list Registration) : list Func * Outcome :=
  match runEvents with
  | [] => ([], Returns)
  | r :: rest =>
      match funcOutcome (func r) with
      | Throws => ([func r], Throws)
      | Returns => let '(calls, out) := forEach rest in (func r :: calls, out)
      end
  end.

(** The listener: the calls it makes, in order, and how it ends. *)
Definition listener (events : list Registration) (e : IBMiEvent) : list Func * Outcome :=
  let runEvents := filter (λ r, event r = e) events in
  forEach runEvents.

(** [setupEmitter] leaves [instance.events] empty. *)
Definition setupEmitter : list Registration := [].

End Legacy.

(** ** The commands of instantiate.ts

    [s.endsWith(suffix)] and [s.split(separator)] for a separator of one
    character; strings are sequences of bytes here, and the one separator
    in use, [/], is a byte of its own in UTF-8 as it is a code unit of its
    own in JavaScript. *)
Module JsString.
Fixpoint endsWith (s suffix : string) : bool :=
  bool_decide (s = suffix) ||
  match s with
  | EmptyString => false
  | String _ s' => endsWith s' suffix
  end.

Fixpoint split (separator : ascii) (s : string) : list string :=
  match s with
  | EmptyString => [EmptyString]
  | String c s' =>
      if bool_decide (c = separator) then EmptyString :: split separator s'
      else match split separator s' with
           | part :: parts => String c part :: parts
           | [] => [String c EmptyString]
           end
  end.
End JsString.

(** [code-for-ibmi.goToFile]: the items of the quick pick, and what
    accepting one does. *)
Module GoToFile.

(** [storage.getSourceList()], as its own properties in the order of
    [Object.keys]: a directory and the sources recorded for it. *)
Definition SourceList : Type := list (string * list string).

Inductive Step : Type :=
  | SetSourceList (sources : SourceList)
  | ShowInformationMessage (message : string)
  | OpenEditable (path : string) (line : nat) (readonly : option bool)
  | Hide.

Definition sourcePath (dir source : string) : string :=
  dir +:+ (if JsString.endsWith dir "/" then "" else "/") +:+ source.

Definition items (sources : SourceList) : list string :=
  flat_map (λ entry, sourcePath entry.1 <$> entry.2) sources ++ ["Clear list"].

(** The [onDidAccept] listener, on the labels of [quickPick.selectedItems];
    with no selected item, reading [selectedItems[0].label] throws. *)
Definition onDidAccept (selectedItems : list string) (readonly : option bool)
    : option (list Step) :=
  match selectedItems with
  | [] => None
  | selection :: _ =>
      Some ((if bool_decide (selection = "") then []
             else if bool_decide (selection = "Clear list")
             then [SetSourceList []; ShowInformationMessage "Cleared list."]
             else [OpenEditable selection 0 readonly]) ++ [Hide])
  end.

End GoToFile.

(** [code-for-ibmi.openErrors]: what is done with the answer to the
    input box, [undefined] when the box is dismissed. *)
Module OpenErrors.

Inductive Step : Type :=
  | RefreshDiagnostics (library object : string)
  | ShowErrorMessage (message : string).

Definition accept (selection : option string) : list Step :=
  match selection with
  | None => []
  | Some selection =>
      if bool_decide (selection = "") then []
      else
        let parts := JsString.split "/" selection in
        match parts !! 0, parts !! 1 with
        | Some library, Some object =>
            if bool_decide (library ≠ "") && bool_decide (object ≠ "")
            then [RefreshDiagnostics library object]
            else [ShowErrorMessage "Format incorrect. Use LIB/OBJECT"]
        | _, _ => [ShowErrorMessage "Format incorrect. Use LIB/OBJECT"]
        end
  end.

End OpenErrors.

(** [code-for-ibmi.secret]: [context.secrets] as a map from keys to
    values.  The result is [None] when the command throws, which it does
    on [instance.getConnection()!] without a connection. *)
Module Secret.

Definition connectionKey (connection : Handle) (key : string) : string :=
  currentConnectionName connection +:+ "_" +:+ key.

Definition secret (key : string) (newValue : option string) (instance : Instance.t)
    (secrets : gmap string string) : option (option string * gmap string string) :=
  match Instance.connection instance with
  | None => None
  | Some connection =>
      let connectionKey := connectionKey connection key in
      match newValue with
      | Some value =>
          if bool_decide (value = "")
          then Some (secrets !! connectionKey, secrets)
          else Some (Some value, <[connectionKey := value]> secrets)
      | None => Some (secrets !! connectionKey, secrets)
      end
  end.

End Secret.

(** [code-for-ibmi.runAction]. *)
Module RunAction.

Record Uri : Type := { scheme : string; path : string }.

(** The argument of the command: a tree node with a [resourceUri], or a
    value that is taken for the uri itself. *)
Inductive Node : Type :=
  | WithResourceUri (resourceUri : Uri)
  | Itself (uri : Uri).

(** [vscode.window.activeTextEditor]: the uri of its document and
    whether the document is dirty. *)
Record Editor : Type := { uri : Uri; isDirty : bool }.

Record Config : Type := { autoSaveBeforeAction : bool }.

Inductive Step : Type :=
  | Save
  | ShowWarningMessage (message : string) (items : list string)
  | Update (config : Config)
  | RunAction (uri : Uri).

(** The command, given the answer to the warning should it be shown;
    [config] is [instance.getConfig()], and reading a field of it throws
    when there is none. *)
Definition runAction (node : option Node) (editor : option Editor)
    (config : option Config) (answer : option string) : option (list Step) :=
  match node with
  | Some (WithResourceUri uri) => Some [RunAction uri]
  | Some (Itself uri) => Some [RunAction uri]
  | None =>
      match editor with
      | None => Some []
      | Some editor =>
          match config with
          | None => None
          | Some config =>
              let '(steps, willRun) :=
                if autoSaveBeforeAction config then ([Save], true)
                else if isDirty editor then
                  let ask := ShowWarningMessage "The file must be saved to run Actions."
                               ["Save"; "Save automatically"; "Cancel"] in
                  if bool_decide (answer = Some "Save") then ([ask; Save], true)
                  else if bool_decide (answer = Some "Save automatically")
                  then ([ask; Update {| autoSaveBeforeAction := true |}; Save], true)
                  else ([ask], false)
                else ([], true) in
              Some (steps ++
                    (if willRun &&
                        bool_decide (scheme (uri editor) ∈ ["member"; "streamfile"; "file"])
                     then [RunAction (uri editor)] else []))
          end
      end
  end.

End RunAction.

(** A member with unsaved changes in the active editor, the automatic
    save being off. *)
Module Editing.
Definition member : RunAction.Uri :=
  {| RunAction.scheme := "member"; RunAction.path := "/QGPL/QRPGLESRC/HELLO.rpgle" |}.

Definition editor : RunAction.Editor :=
  {| RunAction.uri := member; RunAction.isDirty := true |}.

Definition config : RunAction.Config := {| RunAction.autoSaveBeforeAction := false |}.
End Editing.

(** ** Properties *)

(** *** The Map *)
Section js_map_facts.
Context {V : Type}.
Implicit Types (m : list (option (string * V))) (k : string) (v : V).

Lemma holds_true k (s : option (string * V)) :
  JsMap.holds k s = true ↔ ∃ v, s = Some (k, v).
Proof.
  destruct s as [[k' v]|]; simpl.
  - rewrite bool_decide_eq_true. split; [intros ->; eauto|].
    by intros [? [= -> _]].
  - split; [done|]. by intros [? ?].
Qed.

Lemma has_keys k m : JsMap.has k m = true ↔ k ∈ JsMap.keys m.
Proof.
  unfold JsMap.has, JsMap.keys, JsMap.entries. rewrite bool_decide_eq_true.
  induction m as [|s m IH]; simpl.
  - split; [by intros [? ?]|]. by intros ?%elem_of_nil.
  - destruct (JsMap.holds k s) eqn:Hs.
    + apply holds_true in Hs as [v ->]. simpl.
      split; [intros _; apply list_elem_of_here | eauto].
    + destruct s as [[k' v]|]; simpl in *; [|done].
      apply bool_decide_eq_false in Hs.
      rewrite IH, elem_of_cons. split; [by right|]. by intros [?|?].
Qed.

Lemma skeleton_keys m : omap id (JsMap.skeleton m) = JsMap.keys m.
Proof.
  unfold JsMap.skeleton, JsMap.keys, JsMap.entries.
  induction m as [|[[k v]|] m IH]; simpl; [done|by f_equal|done].
Qed.

Lemma skeleton_lookup m j :
  JsMap.skeleton m !! j = fmap fst <$> (m !! j).
Proof. unfold JsMap.skeleton. by rewrite list_lookup_fmap. Qed.

Lemma skeleton_drop m n :
  JsMap.skeleton (drop n m) = drop n (JsMap.skeleton m).
Proof. unfold JsMap.skeleton. by rewrite fmap_drop. Qed.

Lemma skeleton_app m m' :
  JsMap.skeleton (m ++ m') = JsMap.skeleton m ++ JsMap.skeleton m'.
Proof. unfold JsMap.skeleton. by rewrite fmap_app. Qed.

(** [set] keeps every record in its place and at most appends one. *)
Lemma set_skeleton k v m :
  JsMap.skeleton (JsMap.set k v m)
  = JsMap.skeleton m ++ (if JsMap.has k m then [] else [Some k]).
Proof.
  induction m as [|s m IH]; simpl; [done|].
  unfold JsMap.has in *. simpl.
  destruct (JsMap.holds k s) eqn:Hs.
  - apply holds_true in Hs as [v' ->]. simpl. by rewrite app_nil_r.
  - simpl. by rewrite IH.
Qed.

Lemma set_absent k v m :
  JsMap.has k m = false → JsMap.set k v m = m ++ [Some (k, v)].
Proof.
  unfold JsMap.has. induction m as [|s m IH]; simpl; [done|].
  destruct (JsMap.holds k s) eqn:Hs.
  - by apply holds_true in Hs as [v' ->].
  - intros H. by rewrite IH.
Qed.


Lemma delete_present k m p v0 :
  JsMap.wf m → m !! p = Some (Some (k, v0)) →
  JsMap.delete k m = <[p := None]> m.
Proof.
  unfold JsMap.wf, JsMap.keys, JsMap.entries.
  revert p. induction m as [|s m IH]; intros p Hwf Hp; [done|].
  simpl. destruct (JsMap.holds k s) eqn:Hs.
  - apply holds_true in Hs as [v' ->]. destruct p as [|p]; [done|].
    simpl in *. apply NoDup_cons in Hwf as [Hk _]. exfalso. apply Hk.
    apply list_elem_of_fmap. exists (k, v0). split; [done|].
    apply list_elem_of_omap. exists (Some (k, v0)). split; [|done].
    by eapply list_elem_of_lookup_2.
  - destruct p as [|p]; simpl in *.
    + simplify_eq. simpl in Hs. by rewrite bool_decide_eq_true_2 in Hs.
    + f_equal. apply IH; [|done].
      destruct s as [[??]|]; simpl in *; [by apply NoDup_cons in Hwf as [_ ?]|done].
Qed.

Lemma delete_absent k m : JsMap.has k m = false → JsMap.delete k m = m.
Proof.
  unfold JsMap.has. induction m as [|s m IH]; simpl; [done|].
  destruct (JsMap.holds k s) eqn:Hs.
  - by apply holds_true in Hs as [v' ->].
  - intros H. by rewrite IH.
Qed.

(** A [delete] of the key that stands at [p] touches nothing behind [p]. *)
Lemma delete_drop k m p v0 :
  m !! p = Some (Some (k, v0)) → drop (S p) (JsMap.delete k m) = drop (S p) m.
Proof.
  revert p. induction m as [|s m IH]; intros p Hp; [done|].
  simpl. destruct (JsMap.holds k s) eqn:Hs; [done|].
  destruct p as [|p]; simpl in *.
  - simplify_eq. simpl in Hs. by rewrite bool_decide_eq_true_2 in Hs.
  - by apply IH.
Qed.
End js_map_facts.

Section js_map_order.
Context {V : Type}.
Implicit Types (m : list (option (string * V))) (k : string) (v : V).


Lemma keys_skeleton_eq m m' :
  JsMap.skeleton m = JsMap.skeleton m' → JsMap.keys m = JsMap.keys m'.
Proof. intros H. by rewrite <-!skeleton_keys, H. Qed.

Lemma set_keys k v m :
  JsMap.keys (JsMap.set k v m)
  = JsMap.keys m ++ (if JsMap.has k m then [] else [k]).
Proof.
  rewrite <-!skeleton_keys, set_skeleton, omap_app.
  by destruct (JsMap.has k m).
Qed.

Lemma set_wf k v m : JsMap.wf m → JsMap.wf (JsMap.set k v m).
Proof.
  unfold JsMap.wf. rewrite set_keys. intros Hwf.
  destruct (JsMap.has k m) eqn:Hk; [by rewrite app_nil_r|].
  apply NoDup_app. split_and!; [done| |apply NoDup_singleton].
  intros x Hx ->%list_elem_of_singleton.
  apply has_keys in Hx. congruence.
Qed.

Lemma delete_keys_sub k m : JsMap.keys (JsMap.delete k m) `sublist_of` JsMap.keys m.
Proof.
  unfold JsMap.keys, JsMap.entries.
  induction m as [|s m IH]; simpl; [done|].
  destruct (JsMap.holds k s) eqn:Hs.
  - apply holds_true in Hs as [v ->]. simpl. by apply sublist_cons.
  - destruct s as [[k' v']|]; simpl; [by apply sublist_skip|done].
Qed.

Lemma delete_wf k m : JsMap.wf m → JsMap.wf (JsMap.delete k m).
Proof. unfold JsMap.wf. intros H. eapply sublist_NoDup; [done|apply delete_keys_sub]. Qed.





End js_map_order.

(** *** The registry *)
Section registry_facts.
Import Instance.
Implicit Types (i : Instance.t) (ev : IBMiEvent)
  (m : list (option (string * IBMiEventSubscription))).

Lemma the_put ev ev' m i :
  theSubscribers ev' (putSubscribers ev m i)
  = if decide (ev = ev') then m else theSubscribers ev' i.
Proof.
  unfold theSubscribers, putSubscribers. simpl.
  destruct (decide (ev = ev')) as [->|Hne].
  - by rewrite lookup_insert_eq.
  - by rewrite lookup_insert_ne.
Qed.

Lemma getSubscribers_fst ev i : (getSubscribers ev i).1 = theSubscribers ev i.
Proof. done. Qed.

Lemma the_getSubscribers ev ev' i :
  theSubscribers ev' (getSubscribers ev i).2 = theSubscribers ev' i.
Proof.
  unfold getSubscribers. simpl. case_bool_decide as H; [done|].
  unfold theSubscribers at 1. simpl.
  destruct (decide (ev = ev')) as [->|Hne].
  - by rewrite lookup_insert_eq.
  - by rewrite lookup_insert_ne.
Qed.

Lemma getSubscribers_count ev i :
  deprecationCount (getSubscribers ev i).2 = deprecationCount i.
Proof. unfold getSubscribers. simpl. by case_bool_decide. Qed.


Lemma the_subscribe context ev ev' nm f tr i :
  theSubscribers ev' (subscribe context ev nm f tr i)
  = if decide (ev = ev')
    then JsMap.set (subscriptionKey context nm) {| func := f; transient := tr |}
           (theSubscribers ev i)
    else theSubscribers ev' i.
Proof.
  unfold subscribe.
  destruct (getSubscribers ev i) as [m i1] eqn:Hg.
  rewrite the_put. case_decide; [|].
  - by rewrite <-(getSubscribers_fst ev i), Hg.
  - by rewrite <-(the_getSubscribers ev ev' i), Hg.
Qed.

Lemma subscribe_count context ev nm f tr i :
  deprecationCount (subscribe context ev nm f tr i) = deprecationCount i.
Proof.
  unfold subscribe. destruct (getSubscribers ev i) as [m i1] eqn:Hg.
  simpl. by rewrite <-(getSubscribers_count ev i), Hg.
Qed.

Lemma the_onEvent ev ev' f i :
  theSubscribers ev' (onEvent ev f i).1
  = if decide (ev = ev')
    then JsMap.set (deprecatedKey (funcName f) (deprecationCount i))
           {| func := f; transient := None |} (theSubscribers ev i)
    else theSubscribers ev' i.
Proof.
  unfold onEvent.
  destruct (getSubscribers ev i) as [m i1] eqn:Hg. simpl.
  rewrite the_put.
  assert (deprecationCount i1 = deprecationCount i) as ->.
  { by rewrite <-(getSubscribers_count ev i), Hg. }
  case_decide.
  - by rewrite <-(getSubscribers_fst ev i), Hg.
  - rewrite <-(the_getSubscribers ev ev' i), Hg. done.
Qed.

Lemma onEvent_count ev f i :
  deprecationCount (onEvent ev f i).1 = S (deprecationCount i).
Proof.
  unfold onEvent. destruct (getSubscribers ev i) as [m i1] eqn:Hg. simpl.
  by rewrite <-(getSubscribers_count ev i), Hg.
Qed.

(** A registry call is one [set], on the event it names. *)
Lemma the_applyCall ev c i :
  ∃ k v, callWeight c = cost (Some (k, v)) ∧
    (theSubscribers ev (applyCall c i).1 = JsMap.set k v (theSubscribers ev i)
     ∨ theSubscribers ev (applyCall c i).1 = theSubscribers ev i).
Proof.
  destruct c as [extensionId ev0 nm f tr|ev0 f]; unfold applyCall; cbn [fst].
  - eexists _, {| func := f; transient := tr |}. split; [done|].
    rewrite the_subscribe. case_decide; subst; eauto.
  - eexists _, {| func := f; transient := None |}. split; [done|].
    rewrite the_onEvent. case_decide; subst; eauto.
Qed.

Lemma applyCall_log c i : invocations (applyCall c i).2 = [].
Proof. by destruct c. Qed.

Lemma invocations_app l1 l2 : invocations (l1 ++ l2) = invocations l1 ++ invocations l2.
Proof. unfold invocations. by rewrite omap_app. Qed.

Lemma invokedKeys_app l1 l2 : invokedKeys (l1 ++ l2) = invokedKeys l1 ++ invokedKeys l2.
Proof. unfold invokedKeys. by rewrite invocations_app, fmap_app. Qed.

Lemma applyCalls_log cs i : invocations (applyCalls cs i).2 = [].
Proof.
  revert i. induction cs as [|c cs IH]; intros i; simpl; [done|].
  pose proof (applyCall_log c i) as Hc.
  destruct (applyCall c i) as [i1 l1]. specialize (IH i1).
  destruct (applyCalls cs i1) as [i2 l2]. simpl in *.
  by rewrite invocations_app, Hc, IH.
Qed.

Lemma applyCalls_grow ev cs i :
  ∃ more, JsMap.skeleton (theSubscribers ev (applyCalls cs i).1)
          = JsMap.skeleton (theSubscribers ev i) ++ more.
Proof.
  revert i. induction cs as [|c cs IH]; intros i; simpl.
  { exists []. by rewrite app_nil_r. }
  destruct (the_applyCall ev c i) as (k & v & _ & Hc).
  destruct (applyCall c i) as [i1 l1]. destruct (IH i1) as [more Hmore].
  destruct (applyCalls cs i1) as [i2 l2]. simpl in *. rewrite Hmore.
  destruct Hc as [-> | ->]; [|eauto].
  rewrite set_skeleton, <-app_assoc. eauto.
Qed.
End registry_facts.

(** *** The loop of [processEvent] *)
Section loop_facts.
Import Instance.
Implicit Types (i : Instance.t) (ev : IBMiEvent)
  (m : list (option (string * IBMiEventSubscription))).

Lemma weight_body f : weight f = list_sum (map callWeight (funcBody f)).
Proof. by destruct f. Qed.

Lemma cost_pos (s : option (string * IBMiEventSubscription)) : 1 ≤ cost s.
Proof. destruct s as [[??]|]; simpl; lia. Qed.

Lemma turns_cons (s : option (string * IBMiEventSubscription)) m :
  turns (s :: m) = cost s + turns m.
Proof. done. Qed.

Lemma set_turns k v m n :
  turns (drop n (JsMap.set k v m)) ≤ turns (drop n m) + cost (Some (k, v)).
Proof.
  revert n. induction m as [|s m IH]; intros n.
  - destruct n as [|[|n]]; unfold turns; simpl; lia.
  - simpl. destruct (JsMap.holds k s).
    + destruct n as [|n]; [|simpl; apply Nat.le_add_r].
      rewrite !drop_0, !turns_cons. pose proof (cost_pos s). cbn [cost]. lia.
    + destruct n as [|n]; [|apply IH].
      specialize (IH 0). rewrite !drop_0 in *. rewrite !turns_cons. cbn [cost] in *. lia.
Qed.

Lemma delete_turns k m n :
  turns (drop n (JsMap.delete k m)) ≤ turns (drop n m).
Proof.
  revert n. induction m as [|s m IH]; intros n; [done|].
  simpl. destruct (JsMap.holds k s).
  - destruct n as [|n]; [|done].
    rewrite !drop_0, !turns_cons. pose proof (cost_pos s). cbn [cost]. lia.
  - destruct n as [|n]; [|apply IH].
    specialize (IH 0). rewrite !drop_0 in *. rewrite !turns_cons. cbn [cost] in *. lia.
Qed.

Lemma applyCalls_turns ev cs i n :
  turns (drop n (theSubscribers ev (applyCalls cs i).1))
  ≤ turns (drop n (theSubscribers ev i)) + list_sum (map callWeight cs).
Proof.
  revert i. induction cs as [|c cs IH]; intros i; simpl; [lia|].
  destruct (the_applyCall ev c i) as (k & v & Hw & Hc).
  destruct (applyCall c i) as [i1 l1]. specialize (IH i1).
  destruct (applyCalls cs i1) as [i2 l2]. simpl in *.
  destruct Hc as [Hc | Hc]; rewrite Hc in IH; [|lia].
  pose proof (set_turns k v (theSubscribers ev i) n). cbn [cost] in *. lia.
Qed.

Lemma turns_drop m n s :
  m !! n = Some s → turns (drop n m) = cost s + turns (drop (S n) m).
Proof. intros H. by rewrite (drop_S _ _ _ H). Qed.

(** The state after one turn, seen from the records behind the iterator. *)
Lemma the_loopBody ev k c i :
  theSubscribers ev (loopBody ev k c i).1
  = (if isTransient c then JsMap.delete k else id)
      (theSubscribers ev (applyCalls (funcBody (func c)) i).1).
Proof.
  unfold loopBody. destruct (applyCalls _ i) as [i1 l1]. simpl.
  destruct (isTransient c); [|done]. rewrite the_put. by case_decide.
Qed.

Lemma loopBody_log ev k c i :
  invocations (loopBody ev k c i).2 = [(k, func c)].
Proof.
  unfold loopBody. pose proof (applyCalls_log (funcBody (func c)) i) as H.
  destruct (applyCalls _ i) as [i1 l1]. simpl in *.
  rewrite invocations_app, H. unfold settled. by destruct (funcOutcome _).
Qed.


Lemma loopBody_behind ev k c i n :
  theSubscribers ev i !! n = Some (Some (k, c)) →
  ∃ more, JsMap.skeleton (drop (S n) (theSubscribers ev (loopBody ev k c i).1))
          = JsMap.skeleton (drop (S n) (theSubscribers ev i)) ++ more.
Proof.
  intros Hn. rewrite the_loopBody.
  destruct (applyCalls_grow ev (funcBody (func c)) i) as [more Hmore].
  set (m1 := theSubscribers ev (applyCalls (funcBody (func c)) i).1) in *.
  assert (∃ c', m1 !! n = Some (Some (k, c'))) as [c' Hn1].
  { assert (JsMap.skeleton m1 !! n = Some (Some k)) as H.
    { rewrite Hmore. apply lookup_app_l_Some. by rewrite skeleton_lookup, Hn. }
    rewrite skeleton_lookup in H.
    destruct (m1 !! n) as [[[k' c']|]|]; simplify_eq/=. eauto. }
  assert (drop (S n) ((if isTransient c then JsMap.delete k else id) m1)
          = drop (S n) m1) as ->.
  { destruct (isTransient c); [by eapply delete_drop|done]. }
  exists (drop (S n - length (JsMap.skeleton (theSubscribers ev i))) more).
  by rewrite !skeleton_drop, Hmore, drop_app.
Qed.

Lemma loopBody_turns ev k c i n :
  turns (drop n (theSubscribers ev (loopBody ev k c i).1))
  ≤ turns (drop n (theSubscribers ev i)) + weight (func c).
Proof.
  rewrite the_loopBody, weight_body.
  pose proof (applyCalls_turns ev (funcBody (func c)) i n).
  destruct (isTransient c); [|done].
  etrans; [apply delete_turns|done].
Qed.

(** The loop comes to its end within the turns counted for it. *)
Lemma loop_total fuel ev n i :
  turns (drop n (theSubscribers ev i)) < fuel →
  is_Some (processLoop fuel ev n i).
Proof.
  revert n i. induction fuel as [|fuel IH]; intros n i Hfuel; [lia|].
  simpl. destruct (theSubscribers ev i !! n) as [[[k c]|]|] eqn:Hn; [| |eauto].
  - rewrite (turns_drop _ _ _ Hn) in Hfuel. simpl in Hfuel.
    pose proof (loopBody_turns ev k c i (S n)) as Hb.
    destruct (loopBody ev k c i) as [i1 l1]. simpl in Hb.
    destruct (IH (S n) i1) as [[i2 l2] ->]; [lia|eauto].
  - rewrite (turns_drop _ _ _ Hn) in Hfuel. simpl in Hfuel.
    apply IH. lia.
Qed.


(** The loop calls what stands behind the iterator, record by record;
    what the handlers append meanwhile comes after. *)
Lemma loop_order fuel ev n i i' log :
  processLoop fuel ev n i = Some (i', log) →
  ∃ ext, invokedKeys log = JsMap.keys (drop n (theSubscribers ev i)) ++ ext.
Proof.
  revert n i i' log. induction fuel as [|fuel IH]; intros n i i' log; [done|].
  simpl. destruct (theSubscribers ev i !! n) as [[[k c]|]|] eqn:Hn.
  - destruct (loopBody_behind ev k c i n Hn) as [more Hmore].
    pose proof (loopBody_log ev k c i) as Hlog.
    destruct (loopBody ev k c i) as [i1 l1]. simpl in *.
    destruct (processLoop fuel ev (S n) i1) as [[i2 l2]|] eqn:Hrest; [|done].
    intros [= <- <-]. destruct (IH _ _ _ _ Hrest) as [ext Hext].
    exists (omap id more ++ ext).
    rewrite invokedKeys_app, Hext. unfold invokedKeys at 1. rewrite Hlog.
    rewrite (drop_S _ _ _ Hn). rewrite <-(skeleton_keys (drop (S n) (theSubscribers ev i1))).
    rewrite Hmore, omap_app, skeleton_keys.
    unfold JsMap.keys at 2, JsMap.entries. simpl. by rewrite <-app_assoc.
  - intros H. destruct (IH _ _ _ _ H) as [ext Hext]. exists ext.
    by rewrite (drop_S _ _ _ Hn).
  - intros [= <- <-]. exists [].
    apply lookup_ge_None in Hn. by rewrite drop_ge.
Qed.



(** A handler that throws leaves its message on the console. *)
Lemma loop_errors fuel ev n i i' log k f :
  processLoop fuel ev n i = Some (i', log) →
  Invoke k f ∈ log → funcOutcome f = Throws →
  ConsoleError (failedMessage ev k) ∈ log.
Proof.
  revert n i i' log. induction fuel as [|fuel IH]; intros n i i' log; [done|].
  simpl. destruct (theSubscribers ev i !! n) as [[[k0 c0]|]|] eqn:Hn.
  - unfold loopBody. pose proof (applyCalls_log (funcBody (func c0)) i) as Hq.
    destruct (applyCalls _ i) as [i1 l1]. simpl in Hq.
    destruct (processLoop fuel ev (S n) _) as [[i2 l2]|] eqn:Hrest; [|done].
    intros [= <- <-] Hin Hthrows.
    rewrite !elem_of_cons, !elem_of_app in Hin.
    rewrite !elem_of_cons, !elem_of_app.
    destruct Hin as [[=]|[[= <- <-]|[[Hin|Hin]|Hin]]].
    + right. right. left. right. apply list_elem_of_singleton.
      unfold settled. by rewrite Hthrows.
    + exfalso. assert ((k, f) ∈ invocations l1) as H.
      { apply list_elem_of_omap. by exists (Invoke k f). }
      rewrite Hq in H. by apply elem_of_nil in H.
    + apply list_elem_of_singleton in Hin. unfold settled in Hin.
      by destruct (funcOutcome (func c0)).
    + right. right. right. by eapply IH.
  - apply IH.
  - intros [= <- <-] Hin. by apply elem_of_nil in Hin.
Qed.
End loop_facts.

(** *** [processEvent] *)
Section fire_facts.
Import Instance.
Implicit Types (i : Instance.t) (ev : IBMiEvent)
  (m : list (option (string * IBMiEventSubscription))).

Lemma processEvent_loop ev i :
  ∃ i' l,
    processLoop (S (turns (theSubscribers ev i))) ev 0 (getSubscribers ev i).2
      = Some (i', l) ∧
    processEvent ev i = Some (i', [ConsoleTime ev] ++ l ++ [ConsoleTimeEnd ev]).
Proof.
  unfold processEvent.
  pose proof (getSubscribers_fst ev i) as H1.
  pose proof (the_getSubscribers ev ev i) as H2.
  destruct (getSubscribers ev i) as [m i0]. simpl in H1, H2. subst m.
  destruct (loop_total (S (turns (theSubscribers ev i))) ev 0 i0) as [[i' l] Hl].
  { rewrite drop_0, H2. lia. }
  exists i', l. cbn [snd]. by rewrite Hl.
Qed.

Lemma invokedKeys_fire ev l :
  invokedKeys ([ConsoleTime ev] ++ l ++ [ConsoleTimeEnd ev]) = invokedKeys l.
Proof.
  rewrite !invokedKeys_app. unfold invokedKeys at 1 3. simpl.
  by rewrite app_nil_r.
Qed.

Lemma invocations_fire ev l :
  invocations ([ConsoleTime ev] ++ l ++ [ConsoleTimeEnd ev]) = invocations l.
Proof.
  rewrite !invocations_app. unfold invocations at 1 3. simpl.
  by rewrite app_nil_r.
Qed.

Lemma allQuiet_cons (s : option (string * IBMiEventSubscription)) m :
  allQuiet (s :: m) ↔ (∀ k c, s = Some (k, c) → quiet (func c)) ∧ allQuiet m.
Proof.
  unfold allQuiet, JsMap.entries. destruct s as [[k c]|]; simpl.
  - rewrite Forall_cons. simpl. split.
    + intros [? ?]. split; [|done]. by intros ?? [= <- <-].
    + intros [H ?]. split; [|done]. by eapply H.
  - split; [|by intros [_ ?]]. intros ?. split; [|done]. by intros ?? [=].
Qed.

Lemma quiet_loopBody ev k c i :
  quiet (func c) →
  loopBody ev k c i
  = (if isTransient c
     then putSubscribers ev (JsMap.delete k (theSubscribers ev i)) i
     else i,
     entryLog ev (k, c)).
Proof. unfold loopBody, quiet. by intros ->. Qed.

(** With quiet handlers the loop walks the records as they stood and
    empties the transient ones, each right after its turn. *)
Lemma loop_quiet fuel ev n i :
  JsMap.wf (theSubscribers ev i) →
  allQuiet (drop n (theSubscribers ev i)) →
  length (drop n (theSubscribers ev i)) < fuel →
  ∃ i',
    processLoop fuel ev n i
      = Some (i', flat_map (entryLog ev) (JsMap.entries (drop n (theSubscribers ev i)))) ∧
    theSubscribers ev i'
      = take n (theSubscribers ev i) ++ (expire <$> drop n (theSubscribers ev i)) ∧
    (∀ ev', ev' ≠ ev → theSubscribers ev' i' = theSubscribers ev' i) ∧
    connection i' = connection i ∧ storage i' = storage i ∧
    deprecationCount i' = deprecationCount i.
Proof.
  revert n i. induction fuel as [|fuel IH]; intros n i Hwf Hq Hfuel; [lia|].
  simpl. destruct (theSubscribers ev i !! n) as [[[k c]|]|] eqn:Hn.
  - rewrite (drop_S _ _ _ Hn) in Hq, Hfuel |- *.
    apply allQuiet_cons in Hq as [Hc Hq]. simpl in Hfuel.
    rewrite (quiet_loopBody ev k c i) by eauto.
    set (i1 := if isTransient c
               then putSubscribers ev (JsMap.delete k (theSubscribers ev i)) i
               else i).
    assert (theSubscribers ev i1 = <[n := expire (Some (k, c))]> (theSubscribers ev i))
      as Hi1.
    { subst i1. simpl. destruct (isTransient c).
      - rewrite the_put, decide_True by done. by eapply delete_present.
      - symmetry. by apply list_insert_id. }
    destruct (IH (S n) i1) as (i' & Hloop & Hthe & Hother & Hconn & Hsto & Hcount).
    { rewrite Hi1. subst i1. simpl. destruct (isTransient c).
      - erewrite <-delete_present by done. by apply delete_wf.
      - by rewrite list_insert_id. }
    { rewrite Hi1. by rewrite drop_insert_lt by lia. }
    { rewrite Hi1. rewrite drop_insert_lt by lia. lia. }
    exists i'. rewrite Hloop. rewrite Hi1 in Hthe |- *.
    rewrite drop_insert_lt in Hthe |- * by lia.
    split_and!.
    + done.
    + rewrite Hthe. rewrite fmap_cons, cons_middle, app_assoc. f_equal.
      apply lookup_lt_Some in Hn as Hlt.
      rewrite (take_S_r _ _ (expire (Some (k, c)))).
      * by rewrite take_insert_ge by lia.
      * by rewrite list_lookup_insert_eq.
    + intros ev' Hne. rewrite Hother by done. subst i1.
      destruct (isTransient c); [|done]. rewrite the_put. by case_decide.
    + rewrite Hconn. subst i1. by destruct (isTransient c).
    + rewrite Hsto. subst i1. by destruct (isTransient c).
    + rewrite Hcount. subst i1. by destruct (isTransient c).
  - rewrite (drop_S _ _ _ Hn) in Hq, Hfuel |- *.
    apply allQuiet_cons in Hq as [_ Hq]. simpl in Hfuel.
    destruct (IH (S n) i) as (i' & Hloop & Hthe & Hrest); [done|done|lia|].
    exists i'. split; [done|]. split; [|done].
    rewrite Hthe, fmap_cons, cons_middle, app_assoc. f_equal.
    by rewrite (take_S_r _ _ None).
  - exists i. apply lookup_ge_None in Hn.
    rewrite drop_ge, take_ge by done. simpl. by rewrite app_nil_r.
Qed.
End fire_facts.

Section quiet_fires.
Import Instance.
Implicit Types (i : Instance.t) (ev : IBMiEvent)
  (m : list (option (string * IBMiEventSubscription))).

Lemma turns_length m : length m ≤ turns m.
Proof.
  induction m as [|s m IH]; [done|].
  rewrite turns_cons. pose proof (cost_pos s). simpl. lia.
Qed.

Lemma getSubscribers_fields ev i :
  connection (getSubscribers ev i).2 = connection i ∧
  storage (getSubscribers ev i).2 = storage i.
Proof. unfold getSubscribers. simpl. by case_bool_decide. Qed.

(** One fire with quiet handlers: the log, and the registry after it. *)
Lemma fire_quiet ev i :
  JsMap.wf (theSubscribers ev i) → allQuiet (theSubscribers ev i) →
  ∃ i',
    processEvent ev i = Some (i', fireLog ev (theSubscribers ev i)) ∧
    theSubscribers ev i' = expire <$> theSubscribers ev i ∧
    (∀ ev', ev' ≠ ev → theSubscribers ev' i' = theSubscribers ev' i) ∧
    connection i' = connection i ∧ storage i' = storage i ∧
    deprecationCount i' = deprecationCount i.
Proof.
  intros Hwf Hq. destruct (processEvent_loop ev i) as (i' & l & Hloop & Hfire).
  pose proof (the_getSubscribers ev ev i) as Hthe.
  pose proof (λ ev', the_getSubscribers ev ev' i) as Hthe'.
  pose proof (getSubscribers_fields ev i) as [Hc0 Hs0].
  pose proof (getSubscribers_count ev i) as Hn0.
  set (i0 := (getSubscribers ev i).2) in *. clearbody i0.
  destruct (loop_quiet (S (turns (theSubscribers ev i))) ev 0 i0)
    as (i2 & Hloop2 & Hthe2 & Hother & Hconn & Hsto & Hcount).
  { by rewrite Hthe. }
  { by rewrite Hthe, drop_0. }
  { rewrite Hthe, drop_0. pose proof (turns_length (theSubscribers ev i)). lia. }
  rewrite Hloop in Hloop2. injection Hloop2 as -> ->.
  rewrite Hthe, drop_0 in Hfire, Hthe2. rewrite take_0 in Hthe2.
  exists i2. split_and!; [done|done|..].
  - intros ev' Hne. by rewrite Hother, Hthe'.
  - by rewrite Hconn.
  - by rewrite Hsto.
  - by rewrite Hcount.
Qed.

Lemma expire_idemp (s : option (string * IBMiEventSubscription)) :
  expire (expire s) = expire s.
Proof.
  destruct s as [[k c]|]; simpl; [|done].
  destruct (isTransient c) eqn:H; simpl; [done|]. by rewrite H.
Qed.

Lemma expire_entries m :
  JsMap.entries (expire <$> m)
  = filter (λ e, isTransient e.2 = false) (JsMap.entries m).
Proof.
  unfold JsMap.entries. induction m as [|[[k c]|] m IH]; simpl; [done| |done].
  destruct (isTransient c) eqn:H; simpl.
  - rewrite filter_cons_False by (simpl; congruence). exact IH.
  - rewrite filter_cons_True by done. f_equal. exact IH.
Qed.

Lemma expire_wf m : JsMap.wf m → JsMap.wf (expire <$> m).
Proof.
  unfold JsMap.wf, JsMap.keys. rewrite expire_entries. intros H.
  eapply sublist_NoDup; [done|]. apply fmap_sublist, sublist_filter.
Qed.

Lemma expire_quiet m : allQuiet m → allQuiet (expire <$> m).
Proof.
  unfold allQuiet. rewrite expire_entries, !Forall_forall.
  intros H e [_ He]%list_elem_of_filter. by apply H.
Qed.

Lemma expire_expire m : expire <$> (expire <$> m) = expire <$> m.
Proof. rewrite <-list_fmap_compose. apply list_fmap_ext. intros ???. apply expire_idemp. Qed.

(** Fires in a row with quiet handlers: the first goes through the
    collection as it stands, every later one through what the transient
    rule left of it. *)
Lemma fires_quiet n ev i :
  JsMap.wf (theSubscribers ev i) → allQuiet (theSubscribers ev i) →
  ∃ i',
    fires (S n) ev i
      = Some (i', fireLog ev (theSubscribers ev i)
                    :: replicate n (fireLog ev (expire <$> theSubscribers ev i))) ∧
    theSubscribers ev i' = expire <$> theSubscribers ev i.
Proof.
  revert i. induction n as [|n IH]; intros i Hwf Hq.
  - destruct (fire_quiet ev i Hwf Hq) as (i' & Hfire & Hthe & _).
    exists i'. simpl. by rewrite Hfire.
  - destruct (fire_quiet ev i Hwf Hq) as (i1 & Hfire & Hthe & _).
    destruct (IH i1) as (i' & Hfires & Hthe').
    { rewrite Hthe. by apply expire_wf. }
    { rewrite Hthe. by apply expire_quiet. }
    exists i'. rewrite Hthe, expire_expire in Hfires, Hthe'.
    split; [|done]. change (fires (S (S n)) ev i) with
      (match processEvent ev i with
       | Some (i1, l) =>
           match fires (S n) ev i1 with
           | Some (i2, ls) => Some (i2, l :: ls)
           | None => None
           end
       | None => None
       end).
    by rewrite Hfire, Hfires.
Qed.

Lemma invocations_fireLog ev m :
  invocations (fireLog ev m) = called <$> JsMap.entries m.
Proof.
  unfold fireLog. rewrite invocations_fire.
  induction (JsMap.entries m) as [|[k c] es IH]; [done|].
  cbn [flat_map]. rewrite invocations_app, IH. unfold entryLog, settled. simpl.
  by destruct (funcOutcome (func c)).
Qed.


End quiet_fires.

Section sequential_facts.
Import Instance.



Lemma fireLog_sequential ev m : sequential ev (fireLog ev m).
Proof.
  exists ((λ e, (e.1, func e.2, [])) <$> JsMap.entries m). unfold fireLog.
  do 2 f_equal. induction (JsMap.entries m) as [|e es IH]; [done|].
  rewrite fmap_cons. cbn [flat_map]. by rewrite IH.
Qed.
End sequential_facts.

(** *** The claims on the subscription registry *)


(** C7. A fire comes to its end with a log, whatever the outcome of any
    handler (the handlers being those of [Func]: a handler registers
    finitely many further handlers).  It calls every key of the collection
    it started on, in order, and each call that throws leaves the
    [console.error] line whose text is the event, the words
    [ event function ], the identity of the handler and the word [ failed]. *)
Theorem failing_handler_is_isolated (i : Instance.t) (ev : IBMiEvent) :
  ∃ i' log,
    Instance.processEvent ev i = Some (i', log) ∧
    (∃ ext, invokedKeys log = JsMap.keys (Instance.theSubscribers ev i) ++ ext) ∧
    (∀ k f, Invoke k f ∈ log → funcOutcome f = Throws →
            ConsoleError (ev +:+ " event function " +:+ k +:+ " failed") ∈ log).
Proof.
  destruct (processEvent_loop ev i) as (i' & l & Hloop & Hfire).
  eexists i', _. split; [done|]. split.
  - destruct (loop_order _ _ _ _ _ _ Hloop) as [ext Hext]. exists ext.
    by rewrite invokedKeys_fire, Hext, drop_0, the_getSubscribers.
  - intros k f Hin Hthrows.
    rewrite !elem_of_app, !list_elem_of_singleton in Hin.
    destruct Hin as [[=]|[Hin|[=]]].
    rewrite !elem_of_app. right. left.
    exact (loop_errors _ _ _ _ _ _ _ _ Hloop Hin Hthrows).
Qed.

Section transient_facts.
Import Instance.
Implicit Types (i : Instance.t) (ev : IBMiEvent)
  (m : list (option (string * IBMiEventSubscription))).

Lemma entries_lookup m p (e : string * IBMiEventSubscription) :
  m !! p = Some (Some e) → e ∈ JsMap.entries m.
Proof.
  intros H. unfold JsMap.entries. apply list_elem_of_omap.
  exists (Some e). split; [by eapply list_elem_of_lookup_2|done].
Qed.


Lemma applyCalls_wf ev cs i :
  JsMap.wf (theSubscribers ev i) → JsMap.wf (theSubscribers ev (applyCalls cs i).1).
Proof.
  revert i. induction cs as [|c cs IH]; intros i Hwf; simpl; [done|].
  destruct (the_applyCall ev c i) as (k & v & _ & Hc).
  destruct (applyCall c i) as [i1 l1]. specialize (IH i1).
  destruct (applyCalls cs i1) as [i2 l2]. simpl in *. apply IH.
  destruct Hc as [-> | ->]; [by apply set_wf|done].
Qed.

End transient_facts.

Section overlap_facts.
Import Instance.
Context (rejects : Func → bool).
Implicit Types (i : Instance.t) (ev : IBMiEvent).









End overlap_facts.




Section reentrant_facts.
Import Instance.
Implicit Types (i : Instance.t) (ev : IBMiEvent)
  (m : list (option (string * IBMiEventSubscription))).








End reentrant_facts.



(** *** Keys of [subscribe] and of [onEvent] *)
Section key_facts.
Import Instance.

Lemma lacks_app c a b : lacks c (a +:+ b) ↔ lacks c a ∧ lacks c b.
Proof.
  induction a as [|x a IH]; simpl.
  - split; [by split|by intros [_ ?]].
  - rewrite IH. split; [by intros [? [? ?]]|by intros [[? ?] ?]].
Qed.

(** Two strings cut at the last [c] have the same tail. *)
Lemma last_cut c a b p p' :
  lacks c p → lacks c p' → a +:+ String c p = b +:+ String c p' → p = p'.
Proof.
  intros Hp Hp'. revert b. induction a as [|x a IH]; intros [|y b]; simpl.
  - by intros [= ->].
  - intros [= <- ->]. apply lacks_app in Hp as [_ [? _]]. done.
  - intros [= -> <-]. apply lacks_app in Hp' as [_ [? _]]. done.
  - intros [= _ H]. by eapply IH.
Qed.

(** Two strings cut at the first [c] have the same head. *)
Lemma first_cut c a b x y :
  lacks c a → lacks c b → a +:+ String c x = b +:+ String c y → a = b.
Proof.
  revert b. induction a as [|u a IH]; intros [|v b]; simpl.
  - done.
  - by intros _ [? _] [= <-].
  - by intros [? _] _ [= ->].
  - intros [_ Ha] [_ Hb] [= -> H]. f_equal. by apply IH.
Qed.

Lemma pretty_N_go_lacks c x s :
  (∀ d, pretty_N_char d ≠ c) → lacks c s → lacks c (pretty_N_go x s).
Proof.
  intros Hc. revert s. induction (N.lt_wf_0 x) as [x _ IH]; intros s Hs.
  destruct (decide (x = 0)%N) as [->|Hx]; [by rewrite pretty_N_go_0|].
  rewrite pretty_N_go_step by lia. apply IH.
  - apply N.div_lt; lia.
  - simpl. by split.
Qed.

Lemma pretty_lacks_underscore (n : nat) : lacks "_" (pretty n).
Proof.
  unfold pretty, pretty_nat, pretty, pretty_N. case_decide; [by vm_compute|].
  apply pretty_N_go_lacks; [|done].
  intros d. unfold pretty_N_char. by repeat case_match.
Qed.

(** The counter can be read off a deprecated key. *)
Lemma deprecatedKey_count fname fname' n n' :
  deprecatedKey fname n = deprecatedKey fname' n' → n = n'.
Proof.
  unfold deprecatedKey. intros H. apply (inj (String.app _)) in H.
  apply last_cut in H; [|apply pretty_lacks_underscore..].
  by apply (inj pretty).
Qed.

(** An extension with a canonical identifier cannot make a deprecated
    key. *)
Lemma subscriptionKey_not_deprecated extensionId nm fname n :
  canonicalId extensionId →
  subscriptionKey (Vscode.ofId extensionId) nm ≠ deprecatedKey fname n.
Proof.
  intros [Hblank Hdot] H. unfold subscriptionKey, deprecatedKey in H. simpl in H.
  apply (first_cut " " extensionId "deprecated") in H; [|done|by vm_compute].
  subst. apply Hdot. by vm_compute.
Qed.

(** Extensions with canonical identifiers never share a key unless they
    agree on identifier and name. *)
Lemma subscriptionKey_inj id1 nm1 id2 nm2 :
  lacks " " id1 → lacks " " id2 →
  subscriptionKey (Vscode.ofId id1) nm1 = subscriptionKey (Vscode.ofId id2) nm2 →
  id1 = id2 ∧ nm1 = nm2.
Proof.
  intros H1 H2 H. unfold subscriptionKey in H. simpl in H.
  pose proof (first_cut " " id1 id2 _ _ H1 H2 H) as ->. split; [done|].
  apply (inj (String.app _)) in H. by injection H.
Qed.

(** Subscriptions that differ in extension or in name have different
    keys, the identifiers being free of blanks. *)
Lemma subKey_NoDup (calls : list Subscription) :
  Forall (λ c, lacks " " (Vscode.id (Vscode.extension (subContext c)))) calls →
  NoDup ((λ c, (Vscode.id (Vscode.extension (subContext c)), subName c)) <$> calls) →
  NoDup (subKey <$> calls).
Proof.
  intros Hids Hnd.
  assert (subKey <$> calls
          = (λ p : string * string, p.1 +:+ " - " +:+ p.2)
              <$> ((λ c, (Vscode.id (Vscode.extension (subContext c)), subName c))
                     <$> calls)) as ->.
  { rewrite <-list_fmap_compose. by apply list_fmap_ext. }
  apply NoDup_fmap_2_strong; [|done].
  intros [id1 nm1] [id2 nm2] [c1 [[= -> ->] H1]]%list_elem_of_fmap
    [c2 [[= -> ->] H2]]%list_elem_of_fmap Heq. simpl in Heq.
  rewrite Forall_forall in Hids.
  destruct (first_cut " " _ _ _ _ (Hids _ H1) (Hids _ H2) Heq).
  apply (inj (String.app _)) in Heq. injection Heq as Heq. by f_equal.
Qed.

Lemma deprecatedFresh_init : deprecatedFresh init.
Proof. intros ev k fname n Hk. by apply elem_of_nil in Hk. Qed.

Lemma deprecatedFresh_subscribe extensionId ev nm f tr i :
  canonicalId extensionId → deprecatedFresh i →
  deprecatedFresh (subscribe (Vscode.ofId extensionId) ev nm f tr i).
Proof.
  intros Hid Hi ev' k fname n Hk ->. rewrite subscribe_count.
  rewrite the_subscribe in Hk. case_decide as Hev; [subst ev'|by eapply Hi].
  rewrite set_keys in Hk. apply elem_of_app in Hk as [Hk|Hk]; [by eapply Hi|].
  destruct (JsMap.has _ _); [by apply elem_of_nil in Hk|].
  apply list_elem_of_singleton in Hk. symmetry in Hk.
  by apply subscriptionKey_not_deprecated in Hk.
Qed.

Lemma deprecatedFresh_onEvent ev f i :
  deprecatedFresh i → deprecatedFresh (onEvent ev f i).1.
Proof.
  intros Hi ev' k fname n Hk ->. rewrite onEvent_count.
  rewrite the_onEvent in Hk.
  case_decide as Hev; [subst ev'|by etrans; [eapply Hi|lia]].
  rewrite set_keys in Hk. apply elem_of_app in Hk as [Hk|Hk].
  { etrans; [by eapply Hi|lia]. }
  destruct (JsMap.has _ _); [by apply elem_of_nil in Hk|].
  apply list_elem_of_singleton in Hk. apply deprecatedKey_count in Hk. lia.
Qed.

(** [onEvent] on a registry that is fresh appends. *)
Lemma onEvent_appends ev f i :
  deprecatedFresh i →
  theSubscribers ev (onEvent ev f i).1
  = theSubscribers ev i
      ++ [Some (deprecatedKey (funcName f) (deprecationCount i),
                {| func := f; transient := None |})].
Proof.
  intros Hi. rewrite the_onEvent, decide_True by done. apply set_absent.
  apply not_true_is_false. rewrite has_keys. intros Hk.
  pose proof (Hi ev _ _ _ Hk eq_refl). lia.
Qed.

(** What holds of every registry so made: each collection is a [Map], and
    the deprecated keys to come are free. *)
Lemma built_sound i :
  built i → deprecatedFresh i ∧ ∀ ev, JsMap.wf (theSubscribers ev i).
Proof.
  induction 1 as [|extensionId ev nm f tr i Hid _ [IHf IHw]|ev f i _ [IHf IHw]
                  |ev i i' log _ [IHf IHw] Hq Hfire|c s i _ [IHf IHw]].
  - split; [apply deprecatedFresh_init|]. intros ev. apply NoDup_nil_2.
  - split; [by apply deprecatedFresh_subscribe|]. intros ev'.
    rewrite the_subscribe. case_decide; [by apply set_wf|done].
  - split; [by apply deprecatedFresh_onEvent|]. intros ev'.
    rewrite the_onEvent. case_decide; [by apply set_wf|done].
  - destruct (fire_quiet ev i (IHw ev) Hq) as (i2 & Hfire2 & Hthe & Hother & _ & _ & Hcount).
    rewrite Hfire in Hfire2. injection Hfire2 as -> _. split.
    + intros ev' k fname n Hk Heq. rewrite Hcount.
      destruct (decide (ev' = ev)) as [->|Hne].
      * rewrite Hthe in Hk. unfold JsMap.keys in Hk. rewrite expire_entries in Hk.
        apply list_elem_of_fmap in Hk as [e [He [_ Hin]%list_elem_of_filter]].
        eapply (IHf ev k); [|done]. rewrite He. by apply list_elem_of_fmap_2.
      * rewrite Hother in Hk by done. by eapply IHf.
    + intros ev'. destruct (decide (ev' = ev)) as [->|Hne].
      * rewrite Hthe. by apply expire_wf.
      * by rewrite Hother.
  - split; [|exact IHw]. exact IHf.
Qed.
End key_facts.

(** C10.  In a registry made by [subscribe] calls of extensions (their
    identifiers of the form [publisher.name]), by [onEvent] calls and by
    fires, [onEvent] appends a record under the key made of the function
    name and the counter, and steps the counter.  Registering one function
    twice gives two records with two keys at the end of the event's
    collection, all earlier records untouched, and every later fire (of
    quiet handlers) calls both, in that order, after the earlier ones. *)
Theorem onEvent_always_appends (i : Instance.t) (ev : IBMiEvent) (f : Func) :
  built i →
  (Instance.theSubscribers ev (Instance.onEvent ev f i).1
     = Instance.theSubscribers ev i
         ++ [Some (Instance.deprecatedKey (funcName f) (Instance.deprecationCount i),
                   {| func := f; transient := None |})] ∧
   Instance.theSubscribers ev (Instance.onEvent ev f (Instance.onEvent ev f i).1).1
     = Instance.theSubscribers ev i
         ++ [Some (Instance.deprecatedKey (funcName f) (Instance.deprecationCount i),
                   {| func := f; transient := None |});
             Some (Instance.deprecatedKey (funcName f) (S (Instance.deprecationCount i)),
                   {| func := f; transient := None |})] ∧
   Instance.deprecatedKey (funcName f) (Instance.deprecationCount i)
     ≠ Instance.deprecatedKey (funcName f) (S (Instance.deprecationCount i)) ∧
   Instance.deprecationCount (Instance.onEvent ev f (Instance.onEvent ev f i).1).1
     = S (S (Instance.deprecationCount i)) ∧
   built (Instance.onEvent ev f (Instance.onEvent ev f i).1).1) ∧
  (allQuiet (Instance.theSubscribers ev i) → quiet f →
   ∀ n, ∃ i' ls,
     fires n ev (Instance.onEvent ev f (Instance.onEvent ev f i).1).1 = Some (i', ls) ∧
     length ls = n ∧
     Forall (λ l, ∃ earlier,
               invocations l
               = earlier
                   ++ [(Instance.deprecatedKey (funcName f) (Instance.deprecationCount i), f);
                       (Instance.deprecatedKey (funcName f)
                          (S (Instance.deprecationCount i)), f)]) ls).
Proof.
  intros Hbuilt. destruct (built_sound i Hbuilt) as [Hfresh Hwf].
  specialize (Hwf ev).
  set (k0 := Instance.deprecatedKey (funcName f) (Instance.deprecationCount i)).
  set (k1 := Instance.deprecatedKey (funcName f) (S (Instance.deprecationCount i))).
  set (c := {| func := f; transient := None |}).
  set (i1 := (Instance.onEvent ev f i).1).
  set (i2 := (Instance.onEvent ev f i1).1).
  set (m := Instance.theSubscribers ev i) in *.
  assert (Instance.theSubscribers ev i1 = m ++ [Some (k0, c)]) as H1.
  { by apply onEvent_appends. }
  assert (Instance.theSubscribers ev i2 = m ++ [Some (k0, c); Some (k1, c)]) as H2.
  { subst i2. rewrite onEvent_appends by by apply deprecatedFresh_onEvent.
    fold i1. rewrite H1, <-app_assoc. subst i1. by rewrite onEvent_count. }
  split.
  { split; [done|]. split; [done|]. split.
    { intros H%deprecatedKey_count. lia. }
    split. { subst i2 i1. by rewrite !onEvent_count. }
    by do 2 apply built_onEvent. }
  intros Hq Hf n.
  destruct n as [|n]; [by exists i2, []|].
  assert (JsMap.wf (Instance.theSubscribers ev i2)) as Hwf2.
  { subst i2 i1. rewrite !the_onEvent, !decide_True by done. by do 2 apply set_wf. }
  assert (allQuiet (Instance.theSubscribers ev i2)) as Hq2.
  { rewrite H2. unfold allQuiet, JsMap.entries in *. rewrite omap_app.
    apply Forall_app. split; [done|]. by repeat constructor. }
  destruct (fires_quiet n ev i2 Hwf2 Hq2) as (i' & Hfires & _).
  eexists i', _. split; [exact Hfires|]. split; [simpl; by rewrite length_replicate|].
  rewrite H2. apply Forall_cons. split; [|apply Forall_replicate].
  - exists (called <$> JsMap.entries m). rewrite invocations_fireLog.
    unfold JsMap.entries. by rewrite omap_app, fmap_app.
  - exists (called <$> JsMap.entries (expire <$> m)). rewrite invocations_fireLog.
    unfold JsMap.entries. by rewrite fmap_app, omap_app, fmap_app.
Qed.

(** *** The orchestrator *)
Section orchestrator_facts.
Import Instance.

Lemma fired_app ev t1 t2 : fired ev (t1 ++ t2) = fired ev t1 + fired ev t2.
Proof. unfold fired. by rewrite filter_app, length_app. Qed.

Lemma fired_cons ev e tr :
  fired ev (e :: tr) = (if isFire ev e then 1 else 0) + fired ev tr.
Proof.
  unfold fired. destruct (isFire ev e) eqn:H.
  - by rewrite filter_cons_True.
  - rewrite filter_cons_False; [done|congruence].
Qed.


Lemma fired_disposeCurrent ev w : fired ev (disposeCurrent w) = 0.
Proof. unfold disposeCurrent. by destruct (connection (self w)). Qed.

Lemma setConnection_none w :
  setConnection None w
  = (install None "" w,
     disposeCurrent w ++
     [Install None; StoreConnectionName ""; SetContext "code-for-ibmi:connected" false]).
Proof. done. Qed.

Lemma disconnect_spec w :
  disconnect w
  = (install None "" w,
     (disposeCurrent w ++
      [Install None; StoreConnectionName ""; SetContext "code-for-ibmi:connected" false])
     ++ refreshCommands).
Proof. done. Qed.


(** The turn of the loop on attempt [a], read off [attemptResult]. *)
Lemma connectLoop_cons a script options conn w :
  connectLoop (a :: script) options conn w
  = let call := ConnectCall conn (reconnecting options) (reloadServerSettings options) in
    let ask := ShowWarningMessage "Could not reconnect" (retryDetail (customErrorOf a)) in
    if nullish a then Some (Threw, w, [call])
    else if success (attemptResult a)
    then Some (Returned (attemptResult a), (setConnection (Some conn) w).1,
               call :: (setConnection (Some conn) w).2)
    else if truthy (reconnecting options) && retry a
    then match connectLoop script (setReconnecting options) conn (disconnect w).1 with
         | Some (c, w2, t2) => Some (c, w2, call :: (disconnect w).2 ++ [ask] ++ t2)
         | None => None
         end
    else Some (Returned (attemptResult a), (disconnect w).1,
               call :: (disconnect w).2
                 ++ (if truthy (reconnecting options) then [ask] else [])).
Proof.
  cbn [connectLoop]. unfold attemptResult, customErrorOf, nullish.
  destruct (setConnection (Some conn) w) as [ws ts], (disconnect w) as [w1 t1].
  cbn [fst snd].
  destruct (outcome a) as [res|msg|]; cbn [success]; [destruct (success res); [done|]| |done];
    (destruct (truthy (reconnecting options)); cbn [andb]; [|by rewrite app_nil_r]);
    by destruct (retry a).
Qed.

(** Induction on the turns of a loop that has come to its end. *)
Lemma connectLoop_completes conn
    (P : list Attempt → ConnectionOptions → World → Completion → World
         → list Effect → Prop) :
  (∀ a script options w,
     nullish a = false → success (attemptResult a) = true →
     P (a :: script) options w (Returned (attemptResult a))
       (setConnection (Some conn) w).1
       (ConnectCall conn (reconnecting options) (reloadServerSettings options)
        :: (setConnection (Some conn) w).2)) →
  (∀ a script options w c w2 t2,
     nullish a = false → success (attemptResult a) = false →
     truthy (reconnecting options) = true → retry a = true →
     connectLoop script (setReconnecting options) conn (disconnect w).1 = Some (c, w2, t2) →
     P script (setReconnecting options) (disconnect w).1 c w2 t2 →
     P (a :: script) options w c w2
       (ConnectCall conn (reconnecting options) (reloadServerSettings options)
        :: (disconnect w).2
        ++ [ShowWarningMessage "Could not reconnect" (retryDetail (customErrorOf a))]
        ++ t2)) →
  (∀ a script options w,
     nullish a = false → success (attemptResult a) = false →
     truthy (reconnecting options) && retry a = false →
     P (a :: script) options w (Returned (attemptResult a)) (disconnect w).1
       (ConnectCall conn (reconnecting options) (reloadServerSettings options)
        :: (disconnect w).2
        ++ (if truthy (reconnecting options)
            then [ShowWarningMessage "Could not reconnect"
                    (retryDetail (customErrorOf a))]
            else []))) →
  (∀ a script options w,
     nullish a = true →
     P (a :: script) options w Threw w
       [ConnectCall conn (reconnecting options) (reloadServerSettings options)]) →
  ∀ script options w c w' tr,
    connectLoop script options conn w = Some (c, w', tr) → P script options w c w' tr.
Proof.
  intros Hok Hretry Hstop Hthrew script.
  induction script as [|a script IH]; intros options w c w' tr; [done|].
  rewrite connectLoop_cons. cbn zeta.
  destruct (nullish a) eqn:Hn.
  { intros [= <- <- <-]. by apply Hthrew. }
  destruct (success (attemptResult a)) eqn:Hr.
  { intros [= <- <- <-]. by apply Hok. }
  destruct (truthy (reconnecting options) && retry a) eqn:Hagain.
  - apply andb_true_iff in Hagain as [Ht Hy].
    destruct (connectLoop script _ conn _) as [[[c2 w2] t2]|] eqn:Hrest; [|done].
    intros [= <- <- <-]. apply Hretry; auto.
  - intros [= <- <- <-]. by apply Hstop.
Qed.

(** The same for a loop that has handed back a result. *)
Lemma connectLoop_turns conn
    (P : list Attempt → ConnectionOptions → World → ConnectionResult → World
         → list Effect → Prop) :
  (∀ a script options w,
     success (attemptResult a) = true →
     P (a :: script) options w (attemptResult a) (setConnection (Some conn) w).1
       (ConnectCall conn (reconnecting options) (reloadServerSettings options)
        :: (setConnection (Some conn) w).2)) →
  (∀ a script options w r w2 t2,
     success (attemptResult a) = false → truthy (reconnecting options) = true →
     retry a = true →
     connectLoop script (setReconnecting options) conn (disconnect w).1
       = Some (Returned r, w2, t2) →
     P script (setReconnecting options) (disconnect w).1 r w2 t2 →
     P (a :: script) options w r w2
       (ConnectCall conn (reconnecting options) (reloadServerSettings options)
        :: (disconnect w).2
        ++ [ShowWarningMessage "Could not reconnect" (retryDetail (customErrorOf a))]
        ++ t2)) →
  (∀ a script options w,
     success (attemptResult a) = false →
     truthy (reconnecting options) && retry a = false →
     P (a :: script) options w (attemptResult a) (disconnect w).1
       (ConnectCall conn (reconnecting options) (reloadServerSettings options)
        :: (disconnect w).2
        ++ (if truthy (reconnecting options)
            then [ShowWarningMessage "Could not reconnect"
                    (retryDetail (customErrorOf a))]
            else []))) →
  ∀ script options w r w' tr,
    connectLoop script options conn w = Some (Returned r, w', tr) →
    P script options w r w' tr.
Proof.
  intros Hok Hretry Hstop script options w r w' tr Hloop.
  enough (∀ c, connectLoop script options conn w = Some (c, w', tr) →
               ∀ r, c = Returned r → P script options w r w' tr) as H
    by (by eapply H).
  clear r Hloop. intros c Hloop. revert script options w c w' tr Hloop.
  apply (connectLoop_completes conn
           (λ script options w c w' tr, ∀ r, c = Returned r → P script options w r w' tr)).
  - intros a script options w _ Hr r [= <-]. by apply Hok.
  - intros a script options w c w2 t2 _ Hr Ht Hy Hrest IH r ->. apply Hretry; auto.
  - intros a script options w _ Hr Hagain r [= <-]. by apply Hstop.
  - intros a script options w _ r [=].
Qed.

(** The loop of [connect] stops once an attempt is a last turn. *)
Lemma connectLoop_returns script options conn w :
  Exists lastTurn script → is_Some (connectLoop script options conn w).
Proof.
  revert options w. induction script as [|a script IH]; intros options w Hex.
  { by apply Exists_nil in Hex. }
  rewrite connectLoop_cons. cbn zeta.
  destruct (nullish a); [eauto|].
  destruct (success (attemptResult a)) eqn:Hr; [eauto|].
  destruct (truthy (reconnecting options) && retry a) eqn:Hagain; [|eauto].
  apply andb_true_iff in Hagain as [_ Hy].
  apply Exists_cons in Hex as [[?|?]|Hex]; [congruence..|].
  destruct (IH (setReconnecting options) (disconnect w).1 Hex) as [[[c w2] t2] ->].
  eauto.
Qed.

(** Only a rejection with [null] or [undefined] makes the loop throw. *)
Lemma connectLoop_threw script options conn w c w' tr :
  connectLoop script options conn w = Some (c, w', tr) →
  match c with
  | Returned _ => True
  | Threw =>
      Exists (λ a, nullish a = true) script ∧
      ∃ tr0 reconnecting reloadServerSettings,
        tr = tr0 ++ [ConnectCall conn reconnecting reloadServerSettings]
  end.
Proof.
  revert script options w c w' tr. apply connectLoop_completes.
  - done.
  - intros a script options w c w2 t2 _ _ _ _ _ IH. destruct c; [done|].
    destruct IH as (Hex & tr0 & r1 & r2 & ->). split; [by apply Exists_cons_tl|].
    exists (ConnectCall conn (reconnecting options) (reloadServerSettings options)
            :: (disconnect w).2
            ++ [ShowWarningMessage "Could not reconnect" (retryDetail (customErrorOf a))]
            ++ tr0), r1, r2.
    cbn [app]. rewrite <-!app_assoc. reflexivity.
  - done.
  - intros a script options w Hn. split; [by apply Exists_cons_hd|].
    exists [], (reconnecting options), (reloadServerSettings options). reflexivity.
Qed.


Lemma connectLoop_valued script options conn w c w' tr :
  connectLoop script options conn w = Some (c, w', tr) →
  Forall valued script → ∃ r, c = Returned r.
Proof.
  intros Hloop Hall. destruct c as [r|]; [by exists r|].
  destruct (connectLoop_threw _ _ _ _ _ _ _ Hloop) as [Hex _].
  rewrite Forall_forall in Hall. apply Exists_exists in Hex as (a & Hin & Hn).
  specialize (Hall a Hin). unfold valued in Hall. congruence.
Qed.

(** Effects that neither fire [connected] nor install [conn]. *)
Lemma plain_prefix conn w w0 w' pre tr :
  Forall (plain conn) pre →
  (∀ old, getConnection w = Some old →
          Dispose old ∈ pre ∨ getConnection w0 = Some old) →
  connectedBy conn w0 w' tr → connectedBy conn w w' (pre ++ tr).
Proof.
  intros Hpre Hold (Hfired & Hconn & Hlast & Hname & Hseen & before & after & -> & Hnot & Hd).
  assert (fired "connected" pre = 0) as Hzero.
  { clear -Hpre. induction Hpre as [|e pre [He _] _ IH]; [done|].
    rewrite fired_cons, IH. destruct e; try done. simpl.
    case_bool_decide; [subst; by destruct (He seen)|done]. }
  split_and!; [|done..| |].
  - by rewrite fired_app, Hzero, Hfired.
  - intros seen [Hin|Hin]%elem_of_app; [|by apply Hseen].
    rewrite Forall_forall in Hpre. by destruct (Hpre _ Hin) as [He _], (He seen).
  - exists (pre ++ before), after. split; [by rewrite <-app_assoc|]. split.
    + intros [Hin|Hin]%elem_of_app; [|done].
      rewrite Forall_forall in Hpre. by destruct (Hpre _ Hin) as [_ He].
    + intros old Hw. apply elem_of_app.
      destruct (Hold old Hw) as [?|?]; [by left|right; by apply Hd].
Qed.

Lemma plain_disposeCurrent conn w : Forall (plain conn) (disposeCurrent w).
Proof.
  unfold disposeCurrent. destruct (connection (self w)); repeat constructor; done.
Qed.

Lemma disconnect_plain conn w : Forall (plain conn) (disconnect w).2.
Proof.
  rewrite disconnect_spec. simpl. rewrite !Forall_app. split_and!.
  - apply plain_disposeCurrent.
  - repeat constructor; done.
  - repeat constructor; done.
Qed.

Lemma disconnect_disposes w old :
  getConnection w = Some old → Dispose old ∈ (disconnect w).2.
Proof.
  intros H. rewrite disconnect_spec. simpl. apply elem_of_app. left.
  apply elem_of_app. left. unfold disposeCurrent, getConnection in *.
  rewrite H. apply list_elem_of_here.
Qed.

Lemma setConnection_connectedBy conn w :
  connectedBy conn w (setConnection (Some conn) w).1 (setConnection (Some conn) w).2.
Proof.
  unfold setConnection. simpl. split_and!; [|done..| |].
  - by rewrite fired_app, fired_disposeCurrent.
  - intros seen [Hin|Hin]%elem_of_app.
    { pose proof (plain_disposeCurrent conn w) as Hp. rewrite Forall_forall in Hp.
      by destruct (Hp _ Hin) as [He _], (He seen). }
    repeat (apply elem_of_cons in Hin as [Hin|Hin]; [by simplify_eq|]).
    by apply elem_of_nil in Hin.
  - eexists (disposeCurrent w ++ [SetDisconnectedCallback conn]), _.
    split; [by rewrite <-!app_assoc|]. split.
    + intros [Hin|Hin]%elem_of_app.
      * pose proof (plain_disposeCurrent conn w) as Hp. rewrite Forall_forall in Hp.
        by destruct (Hp _ Hin) as [_ He].
      * by apply list_elem_of_singleton in Hin.
    + intros old Hold. apply elem_of_app. left.
      unfold disposeCurrent, getConnection in *. rewrite Hold. apply list_elem_of_here.
Qed.

(** What the loop leaves when it ends on a connection that stands. *)
Lemma connectLoop_success script options conn w r w' tr :
  connectLoop script options conn w = Some (Returned r, w', tr) → success r = true →
  connectedBy conn w w' tr.
Proof.
  revert script options w r w' tr.
  apply (connectLoop_turns conn
           (λ _ _ w r w' tr, success r = true → connectedBy conn w w' tr)).
  - intros a script options w _ _.
    apply (plain_prefix conn w w _ [ConnectCall conn _ _]).
    + by repeat constructor.
    + intros old Hold. by right.
    + apply setConnection_connectedBy.
  - intros a script options w r w2 t2 _ _ _ _ IH Hr. specialize (IH Hr).
    rewrite app_assoc, app_comm_cons.
    eapply plain_prefix; [| |exact IH].
    + apply Forall_cons. split; [done|]. apply Forall_app. split.
      * apply disconnect_plain.
      * by repeat constructor.
    + intros old Hold. left. apply list_elem_of_further, elem_of_app. left.
      by apply disconnect_disposes.
  - intros a script options w Hr _ Hr'. congruence.
Qed.
End orchestrator_facts.

Section failure_facts.
Import Instance.




Lemma connect_unfold options script w :
  connect options script w
  = match connectLoop script options (newHandle options w)
            {| self := self w; GlobalStorage := GlobalStorage w;
               handles := S (handles w) |} with
    | Some (Returned result, w1, t1) =>
        Some (Returned result, w1,
              [OutputClear] ++ t1
                ++ (if success result then [] else [Dispose (newHandle options w)]))
    | Some (Threw, w1, t1) => Some (Threw, w1, [OutputClear] ++ t1)
    | None => None
    end.
Proof. done. Qed.

(** A [connect] that has handed back a result, by its loop. *)
Lemma connect_returned options script w r w' tr :
  connect options script w = Some (Returned r, w', tr) →
  ∃ t1,
    connectLoop script options (newHandle options w)
      {| self := self w; GlobalStorage := GlobalStorage w; handles := S (handles w) |}
    = Some (Returned r, w', t1) ∧
    tr = OutputClear
         :: t1 ++ (if success r then [] else [Dispose (newHandle options w)]).
Proof.
  rewrite connect_unfold.
  destruct (connectLoop script options (newHandle options w) _)
    as [[[[r1|] w1] t1]|]; [|done..].
  intros Heq. exists t1.
  assert (r1 = r ∧ w1 = w' ∧
          [OutputClear] ++ t1 ++ (if success r1 then [] else [Dispose (newHandle options w)])
          = tr) as (-> & -> & <-) by (by injection Heq).
  by split.
Qed.

(** A [connect] that has thrown, by its loop. *)
Lemma connect_threw options script w w' tr :
  connect options script w = Some (Threw, w', tr) →
  ∃ t1,
    connectLoop script options (newHandle options w)
      {| self := self w; GlobalStorage := GlobalStorage w; handles := S (handles w) |}
    = Some (Threw, w', t1) ∧
    tr = OutputClear :: t1.
Proof.
  rewrite connect_unfold.
  destruct (connectLoop script options (newHandle options w) _)
    as [[[[r1|] w1] t1]|]; [done| |done].
  intros Heq. exists t1.
  assert (w1 = w' ∧ [OutputClear] ++ t1 = tr) as (-> & <-) by (by injection Heq).
  by split.
Qed.

Lemma connect_ends options script w :
  ending options script → is_Some (connect options script w).
Proof.
  intros Hend. rewrite connect_unfold.
  set (w0 := {| self := self w; GlobalStorage := GlobalStorage w;
                handles := S (handles w) |}).
  assert (is_Some (connectLoop script options (newHandle options w) w0))
    as [[[[r|] w'] tr] ->]; [|eauto..].
  destruct Hend as [Hlast|[Hno Hne]]; [by apply connectLoop_returns|].
  destruct script as [|a script]; [done|]. rewrite connectLoop_cons. cbn zeta.
  rewrite Hno. cbn [andb].
  destruct (nullish a); [eauto|]. destruct (success (attemptResult a)); eauto.
Qed.

(** With no rejection by [null] or [undefined], what [connect] ends with
    is a result. *)
Lemma connect_returns options script w :
  ending options script → Forall valued script →
  ∃ r w' tr, connect options script w = Some (Returned r, w', tr).
Proof.
  intros Hend Hall. destruct (connect_ends options script w Hend) as [[[c w'] tr] Hc].
  destruct c as [r|]; [by eauto|].
  destruct (connect_threw _ _ _ _ _ Hc) as (t1 & Hloop & _).
  by destruct (connectLoop_valued _ _ _ _ _ _ _ Hloop Hall).
Qed.
End failure_facts.

(** *** The claims on the orchestrator *)

(** C2. [connect] comes to its end on every script on which its loop
    ends, and it ends with a result when no attempt is rejected with [null]
    or [undefined].  When its result has [success = true]: [connected] is
    fired exactly once; the new handle is the current one; the handle that
    was current before is disposed before the new one is installed; and at
    the instant [connected] is fired the global storage's last connection
    (and the connection storage's name) is the new handle's connection
    name. *)
Theorem connect_success
    (options : ConnectionOptions) (script : list Attempt) (w : Instance.World) :
  (ending options script → is_Some (Instance.connect options script w)) ∧
  (ending options script → Forall valued script →
   ∃ r w' tr, Instance.connect options script w = Some (Returned r, w', tr)) ∧
  ∀ r w' tr,
    Instance.connect options script w = Some (Returned r, w', tr) →
    success r = true →
    connectedBy (newHandle options w) w w' tr.
Proof.
  split; [apply connect_ends|]. split; [apply connect_returns|].
  intros r w' tr (t1 & Hloop & ->)%connect_returned Hr. rewrite Hr, app_nil_r.
  eapply (plain_prefix _ _
            {| Instance.self := Instance.self w;
               Instance.GlobalStorage := Instance.GlobalStorage w;
               Instance.handles := S (Instance.handles w) |} _ [OutputClear]).
  - by repeat constructor.
  - intros old Hold. right. exact Hold.
  - by eapply connectLoop_success.
Qed.



Section documents_facts.
Import Instantiate.

Lemma notices_app t1 t2 : notices (t1 ++ t2) = notices t1 ++ notices t2.
Proof. unfold notices. by rewrite filter_app. Qed.

Lemma ends_app t1 t2 : ends (t1 ++ t2) = ends t1 ++ ends t2.
Proof. unfold ends. by rewrite filter_app. Qed.

Lemma notices_cons e tr :
  notices (e :: tr) = if isNotice e then e :: notices tr else notices tr.
Proof.
  unfold notices. destruct (isNotice e) eqn:H.
  - by rewrite filter_cons_True.
  - rewrite filter_cons_False; [done|congruence].
Qed.

Lemma ends_cons e tr : ends (e :: tr) = if isEnd e then e :: ends tr else ends tr.
Proof.
  unfold ends. destruct (isEnd e) eqn:H.
  - by rewrite filter_cons_True.
  - rewrite filter_cons_False; [done|congruence].
Qed.

(** The loop over the documents lowers [doDisconnect] at the first
    unsaved document, with one notice there, and never raises it. *)
Lemma documentsLoop_spec textDocuments doDisconnect :
  (documentsLoop textDocuments doDisconnect).1
    = doDisconnect && negb (existsb unsaved textDocuments) ∧
  notices (documentsLoop textDocuments doDisconnect).2
    = (if doDisconnect && existsb unsaved textDocuments
       then [ShowErrorMessage "Cannot disconnect while files have not been saved."]
       else []) ∧
  ends (documentsLoop textDocuments doDisconnect).2 = [].
Proof.
  revert doDisconnect. induction textDocuments as [|d docs IH]; intros b.
  { simpl. by rewrite andb_true_r, andb_false_r. }
  cbn [documentsLoop existsb]. unfold unsaved at 1 3.
  destruct (connectionBacked d), (Vscode.isDirty d), b; cbn [andb orb negb];
    lazymatch goal with
    | |- context [documentsLoop docs ?b'] =>
        destruct (IH b') as (H1 & H2 & H3);
        destruct (documentsLoop docs b') as [final later]
    end; cbn [fst snd andb orb negb] in *; subst;
    repeat first [rewrite notices_app | rewrite notices_cons | rewrite ends_app
                 | rewrite ends_cons | progress cbn [isNotice isEnd]];
    rewrite ?H2, ?H3; done.
Qed.

(** The loop over the documents hands nothing to the emitter. *)
Lemma documentsLoop_fired ev textDocuments doDisconnect :
  fired ev (documentsLoop textDocuments doDisconnect).2 = 0.
Proof.
  revert doDisconnect. induction textDocuments as [|d docs IH]; intros b; [done|].
  cbn [documentsLoop].
  destruct (connectionBacked d), (Vscode.isDirty d), b;
    lazymatch goal with
    | |- context [documentsLoop docs ?b'] =>
        specialize (IH b'); destruct (documentsLoop docs b') as [final later]
    end; cbn [fst snd] in *;
    repeat first [rewrite fired_cons | rewrite fired_app | progress cbn [isFire app]];
    by rewrite IH.
Qed.
End documents_facts.

(** C5. When one of the open documents of the connection ([member] or
    [streamfile], not closed) has changes not saved, the [disconnect] of
    instantiate.ts answers [false], leaves the instance as it was, with its
    current connection, never calls [end] on it, fires no [disconnected]
    event, and shows the notice
    [Cannot disconnect while files have not been saved.] once. *)
Theorem unsaved_document_blocks_disconnect
    (textDocuments : list Vscode.TextDocument) (instance : Instance.t) :
  Exists (λ d, unsaved d = true) textDocuments →
  ∃ tr,
    Instantiate.disconnect textDocuments instance = (false, instance, tr) ∧
    ends tr = [] ∧
    fired "disconnected" tr = 0 ∧
    notices tr
    = [ShowErrorMessage "Cannot disconnect while files have not been saved."].
Proof.
  intros Hdirty. unfold Instantiate.disconnect.
  pose proof (documentsLoop_fired "disconnected" textDocuments true) as Hfired.
  destruct (documentsLoop_spec textDocuments true) as (H1 & H2 & H3).
  assert (existsb unsaved textDocuments = true) as Hsome.
  { clear -Hdirty. induction Hdirty as [d docs Hd|d docs _ IH]; simpl.
    - by rewrite Hd.
    - rewrite IH. apply orb_true_r. }
  rewrite Hsome in H1, H2. simpl in H1, H2.
  destruct (Instantiate.documentsLoop textDocuments true) as [b tr]. simpl in *. subst b.
  by exists tr.
Qed.

(** ** Further properties: the registry *)

Section alike_facts.
Import Instance.
Implicit Types (i j : Instance.t) (ev : IBMiEvent).

Lemma put_count ev m i : deprecationCount (putSubscribers ev m i) = deprecationCount i.
Proof. done. Qed.

Lemma applyCall_alike ev c i j :
  alike ev i j →
  (applyCall c i).2 = (applyCall c j).2 ∧ alike ev (applyCall c i).1 (applyCall c j).1.
Proof.
  intros [Hm Hn]. destruct c as [extensionId ev0 nm f tr|ev0 f]; unfold applyCall.
  - cbn [fst snd]. split; [done|]. split.
    + rewrite !the_subscribe. case_decide; [|done]. subst. by rewrite Hm.
    + by rewrite !subscribe_count.
  - split; [done|]. split.
    + rewrite !the_onEvent, Hn. case_decide; [|done]. subst. by rewrite Hm.
    + by rewrite !onEvent_count, Hn.
Qed.

Lemma applyCalls_alike ev cs i j :
  alike ev i j →
  (applyCalls cs i).2 = (applyCalls cs j).2 ∧ alike ev (applyCalls cs i).1 (applyCalls cs j).1.
Proof.
  revert i j. induction cs as [|c cs IH]; intros i j H; simpl; [done|].
  destruct (applyCall_alike ev c i j H) as [Hl Ha].
  destruct (applyCall c i) as [i1 l1], (applyCall c j) as [j1 l1']. simpl in *.
  destruct (IH i1 j1 Ha) as [Hl2 Ha2].
  destruct (applyCalls cs i1) as [i2 l2], (applyCalls cs j1) as [j2 l2']. simpl in *.
  by subst.
Qed.

Lemma loopBody_alike ev k c i j :
  alike ev i j →
  (loopBody ev k c i).2 = (loopBody ev k c j).2 ∧
  alike ev (loopBody ev k c i).1 (loopBody ev k c j).1.
Proof.
  intros H. unfold loopBody.
  destruct (applyCalls_alike ev (funcBody (func c)) i j H) as [Hl [Hm Hn]].
  destruct (applyCalls _ i) as [i1 l1], (applyCalls _ j) as [j1 l1']. simpl in *.
  subst. split; [done|]. destruct (isTransient c); [|done].
  split; [|by rewrite !put_count].
  rewrite !the_put. case_decide; [|done]. by rewrite Hm.
Qed.

Lemma loop_alike fuel ev n i j :
  alike ev i j →
  match processLoop fuel ev n i, processLoop fuel ev n j with
  | Some (i', l), Some (j', l') => l = l' ∧ alike ev i' j'
  | None, None => True
  | _, _ => False
  end.
Proof.
  revert n i j. induction fuel as [|fuel IH]; intros n i j H; simpl; [done|].
  destruct H as [Hm Hn]. rewrite <-Hm.
  destruct (theSubscribers ev i !! n) as [[[k c]|]|] eqn:Hn'.
  - destruct (loopBody_alike ev k c i j (conj Hm Hn)) as [Hl Ha].
    destruct (loopBody ev k c i) as [i1 l1], (loopBody ev k c j) as [j1 l1'].
    simpl in *. specialize (IH (S n) i1 j1 Ha).
    destruct (processLoop fuel ev (S n) i1) as [[i2 l2]|],
             (processLoop fuel ev (S n) j1) as [[j2 l2']|]; try done.
    destruct IH as [-> ?]. by subst.
  - by apply IH.
  - done.
Qed.

Lemma getSubscribers_alike ev i : alike ev (getSubscribers ev i).2 i.
Proof. split; [apply the_getSubscribers|apply getSubscribers_count]. Qed.
End alike_facts.

(** X1. A fire of an event reads nothing of the registry but the event's
    own collection and the deprecation counter.  A [subscribe] on another
    event leaves both as they are; and on two registries that agree on
    them, [processEvent] shows the same log and leaves two registries that
    agree on them again. *)
Theorem fire_reads_only_its_own_event (ev : IBMiEvent) (i j : Instance.t) :
  (∀ context ev' nm f tr,
     ev' ≠ ev → alike ev i (Instance.subscribe context ev' nm f tr i)) ∧
  (alike ev i j →
   ∃ i' j' log,
     Instance.processEvent ev i = Some (i', log) ∧
     Instance.processEvent ev j = Some (j', log) ∧
     alike ev i' j').
Proof.
  split.
  { intros context ev' nm f tr Hne. split.
    - rewrite the_subscribe. by case_decide.
    - by rewrite subscribe_count. }
  intros H.
  destruct (processEvent_loop ev i) as (i' & l & Hi & Hpi).
  destruct (processEvent_loop ev j) as (j' & l' & Hj & Hpj).
  assert (alike ev (Instance.getSubscribers ev i).2 (Instance.getSubscribers ev j).2) as Ha.
  { destruct (getSubscribers_alike ev i) as [? ?], (getSubscribers_alike ev j) as [? ?].
    destruct H. split; congruence. }
  pose proof (loop_alike (S (Instance.turns (Instance.theSubscribers ev i))) ev 0 _ _ Ha)
    as Hloop.
  rewrite Hi in Hloop. destruct H as [Hm Hn]. rewrite <-Hm in Hj. rewrite Hj in Hloop.
  destruct Hloop as [-> Ha']. eexists i', j', _. by rewrite Hpi, Hpj.
Qed.

Section account_facts.
Import Instance.
Implicit Types (i : Instance.t) (ev : IBMiEvent) (log : list LogEntry).

Lemma warnings_app l1 l2 : warnings (l1 ++ l2) = warnings l1 ++ warnings l2.
Proof. unfold warnings. by rewrite omap_app. Qed.

Lemma errorLines_app l1 l2 : errorLines (l1 ++ l2) = errorLines l1 ++ errorLines l2.
Proof. unfold errorLines. by rewrite omap_app. Qed.

Lemma timersStarted_app l1 l2 :
  timersStarted (l1 ++ l2) = timersStarted l1 ++ timersStarted l2.
Proof. unfold timersStarted. by rewrite omap_app. Qed.

Lemma timersEnded_app l1 l2 : timersEnded (l1 ++ l2) = timersEnded l1 ++ timersEnded l2.
Proof. unfold timersEnded. by rewrite omap_app. Qed.

Lemma returned_app l1 l2 : returned (l1 ++ l2) = returned l1 ++ returned l2.
Proof. unfold returned. by rewrite invocations_app, filter_app, fmap_app. Qed.

Lemma thrown_app l1 l2 : thrown (l1 ++ l2) = thrown l1 ++ thrown l2.
Proof. unfold thrown. by rewrite invocations_app, filter_app, fmap_app. Qed.

(** What the registry calls of a handler leave in the log and in the
    counter: one warning for each [onEvent]. *)
Lemma applyCalls_account cs i :
  (applyCalls cs i).2
    = ConsoleWarn <$> replicate (length (filter (λ c, isOnEventCall c = true) cs))
                        deprecationWarning ∧
  deprecationCount (applyCalls cs i).1
    = deprecationCount i + length (filter (λ c, isOnEventCall c = true) cs).
Proof.
  revert i. induction cs as [|c cs IH]; intros i; simpl; [split; [done|lia]|].
  assert ((applyCall c i).2
          = (if isOnEventCall c then [ConsoleWarn deprecationWarning] else []) ∧
          deprecationCount (applyCall c i).1
          = deprecationCount i + (if isOnEventCall c then 1 else 0)) as [Hl Hn].
  { destruct c as [extensionId ev0 nm f tr|ev0 f]; unfold applyCall.
    - cbn [fst snd]. rewrite subscribe_count. simpl. split; [done|lia].
    - rewrite onEvent_count. simpl. split; [|lia].
      unfold onEvent. by destruct (getSubscribers ev0 i). }
  destruct (applyCall c i) as [i1 l1]. destruct (IH i1) as [Hl2 Hn2].
  destruct (applyCalls cs i1) as [i2 l2]. simpl in *. subst l1 l2.
  rewrite Hn2, Hn, filter_cons.
  destruct (isOnEventCall c); simpl; (split; [done|lia]).
Qed.

Lemma warnings_replicate n :
  warnings (ConsoleWarn <$> replicate n deprecationWarning)
  = replicate n deprecationWarning.
Proof. induction n as [|n IH]; [done|]. unfold warnings in *. simpl. by f_equal. Qed.

Lemma quiet_of_warnings (ws : list string) :
  invocations (ConsoleWarn <$> ws) = [] ∧ errorLines (ConsoleWarn <$> ws) = [] ∧
  timersStarted (ConsoleWarn <$> ws) = [] ∧ timersEnded (ConsoleWarn <$> ws) = [].
Proof. induction ws as [|w ws IH]; simpl; [done|]. exact IH. Qed.

(** The log of one turn, line by line. *)
Lemma loopBody_account ev k c i :
  let r := loopBody ev k c i in
  invocations r.2 = [(k, func c)] ∧
  warnings r.2 = replicate (onEventCalls (func c)) deprecationWarning ∧
  deprecationCount r.1 = deprecationCount i + onEventCalls (func c) ∧
  timersStarted r.2 = [k] ∧
  timersEnded r.2 = (if returns (func c) then [k] else []) ∧
  errorLines r.2 = (if returns (func c) then [] else [failedMessage ev k]).
Proof.
  unfold loopBody, onEventCalls.
  destruct (applyCalls_account (funcBody (func c)) i) as [Hl Hn].
  destruct (applyCalls (funcBody (func c)) i) as [i1 l1]. simpl in Hl, Hn. subst l1.
  set (n := length _) in *. cbn zeta. cbn [fst snd].
  destruct (quiet_of_warnings (replicate n deprecationWarning)) as (Q1 & Q2 & Q3 & Q4).
  split_and!;
    rewrite ?invocations_app, ?warnings_app, ?timersStarted_app, ?timersEnded_app,
      ?errorLines_app, ?Q1, ?Q2, ?Q3, ?Q4, ?warnings_replicate;
    unfold settled, returns;
    try (destruct (funcOutcome (func c)); simpl; by rewrite ?app_nil_r).
  rewrite <-Hn. by destruct (isTransient c).
Qed.

Lemma loop_account fuel ev n i i' log :
  processLoop fuel ev n i = Some (i', log) →
  warnings log
    = replicate (list_sum ((λ p, onEventCalls p.2) <$> invocations log)) deprecationWarning ∧
  deprecationCount i' = deprecationCount i + length (warnings log) ∧
  timersStarted log = invokedKeys log ∧
  timersEnded log = returned log ∧
  errorLines log = failedMessage ev <$> thrown log.
Proof.
  revert n i i' log. induction fuel as [|fuel IH]; intros n i i' log; simpl; [done|].
  destruct (theSubscribers ev i !! n) as [[[k c]|]|] eqn:Hn.
  - pose proof (loopBody_account ev k c i) as H. cbn zeta in H.
    destruct (loopBody ev k c i) as [i1 l1]. simpl in H.
    destruct H as (H1 & H2 & H3 & H4 & H5 & H6).
    destruct (processLoop fuel ev (S n) i1) as [[i2 l2]|] eqn:Hrest; [|done].
    intros [= <- <-]. destruct (IH _ _ _ _ Hrest) as (I1 & I2 & I3 & I4 & I5).
    rewrite warnings_app, invocations_app, timersStarted_app, timersEnded_app,
      errorLines_app, invokedKeys_app, returned_app, thrown_app, fmap_app.
    rewrite H2, I1 at 1. rewrite H1. cbn [fmap list_fmap list_sum app].
    rewrite H4, H5, H6, I3, I4, I5, I2, H3, length_app, H2, length_replicate.
    unfold invokedKeys, returned, thrown. rewrite H1. cbn [fmap list_fmap].
    rewrite !filter_cons, !filter_nil. cbn [snd].
    split_and!.
    + by rewrite <-replicate_add.
    + lia.
    + done.
    + by destruct (returns (func c)).
    + by destruct (returns (func c)).
  - apply IH.
  - intros [= <- <-]. simpl. split_and!; [done|lia|done..].
Qed.
End account_facts.

(** X2. Every [onEvent] call a handler makes during a fire logs one
    deprecation warning and takes one number from the counter: when a fire
    has come to its end, its log holds as many warnings as the handlers it
    called make [onEvent] calls, and the counter has advanced by that
    many.  (Whether a fire comes to an end is no part of this: a handler
    that registers itself anew at every call keeps the iterator going, and
    [Func] has no such handler.) *)
Theorem fire_counts_deprecation_warnings (ev : IBMiEvent) (i i' : Instance.t)
    (log : list LogEntry) :
  Instance.processEvent ev i = Some (i', log) →
  warnings log
    = replicate (list_sum ((λ p, onEventCalls p.2) <$> invocations log))
        Instance.deprecationWarning ∧
  Instance.deprecationCount i'
    = Instance.deprecationCount i + length (warnings log).
Proof.
  destruct (processEvent_loop ev i) as (i1 & l & Hloop & ->). intros Hfire.
  assert (i' = i1 ∧ log = [ConsoleTime ev] ++ l ++ [ConsoleTimeEnd ev]) as [-> ->]
    by (by injection Hfire).
  destruct (loop_account _ _ _ _ _ _ Hloop) as (H1 & H2 & _).
  rewrite invocations_fire, !warnings_app. cbn [warnings omap app]. simpl.
  rewrite app_nil_r. split; [exact H1|].
  by rewrite H2, getSubscribers_count.
Qed.

(** X3. In the log of a fire that has come to its end every call is
    accounted for once: a timer is started for the event and then for each
    call, in calling order; the timer of a call that returns is stopped,
    and the event's own timer last; the timer of a call that throws is
    never stopped, and in its place there is one [console.error] line, whose
    text is the event, the words [ event function ], the key and the word
    [ failed]. *)
Theorem every_call_settles_once (ev : IBMiEvent) (i i' : Instance.t)
    (log : list LogEntry) :
  Instance.processEvent ev i = Some (i', log) →
  timersStarted log = ev :: invokedKeys log ∧
  timersEnded log = returned log ++ [ev] ∧
  errorLines log
    = (λ k, ev +:+ " event function " +:+ k +:+ " failed") <$> thrown log.
Proof.
  destruct (processEvent_loop ev i) as (i1 & l & Hloop & ->). intros Hfire.
  assert (i' = i1 ∧ log = [ConsoleTime ev] ++ l ++ [ConsoleTimeEnd ev]) as [-> ->]
    by (by injection Hfire).
  destruct (loop_account _ _ _ _ _ _ Hloop) as (_ & _ & H3 & H4 & H5).
  rewrite invokedKeys_fire, !timersStarted_app, !timersEnded_app, !errorLines_app,
    !returned_app, !thrown_app, H3, H4, H5.
  unfold returned, thrown. simpl. by rewrite !app_nil_r.
Qed.

Section lookup_facts.
Context {V : Type}.
Implicit Types (m : list (option (string * V))) (k : string) (v : V).

Lemma get_set_eq k v m : JsMap.get k (JsMap.set k v m) = Some v.
Proof.
  induction m as [|s m IH]; simpl.
  - by rewrite bool_decide_eq_true_2.
  - destruct (JsMap.holds k s) eqn:Hs; simpl.
    + by rewrite bool_decide_eq_true_2.
    + by rewrite Hs.
Qed.

Lemma get_set_ne k k' v m : k' ≠ k → JsMap.get k' (JsMap.set k v m) = JsMap.get k' m.
Proof.
  intros Hne. induction m as [|s m IH]; simpl.
  - by rewrite bool_decide_eq_false_2.
  - destruct (JsMap.holds k s) eqn:Hs; simpl.
    + apply holds_true in Hs as [v0 ->]. simpl.
      by rewrite !bool_decide_eq_false_2 by done.
    + by rewrite IH.
Qed.

Lemma set_set k v v' m : JsMap.set k v' (JsMap.set k v m) = JsMap.set k v' m.
Proof.
  induction m as [|s m IH]; simpl.
  - by rewrite bool_decide_eq_true_2.
  - destruct (JsMap.holds k s) eqn:Hs; simpl.
    + by rewrite bool_decide_eq_true_2.
    + by rewrite Hs, IH.
Qed.
End lookup_facts.

Section subscribe_facts.
Import Instance.
Implicit Types (i : Instance.t) (ev : IBMiEvent).

(** [subscribe] as one write to the event's collection. *)
Lemma subscribe_put context ev nm f tr i :
  subscribe context ev nm f tr i
  = putSubscribers ev
      (JsMap.set (subscriptionKey context nm) {| func := f; transient := tr |}
         (theSubscribers ev i)) i.
Proof.
  unfold subscribe, getSubscribers. case_bool_decide; [done|].
  unfold putSubscribers, withSubscribers. simpl. by rewrite insert_insert_eq.
Qed.

Lemma put_put ev m m' i : putSubscribers ev m' (putSubscribers ev m i) = putSubscribers ev m' i.
Proof. unfold putSubscribers, withSubscribers. simpl. by rewrite insert_insert_eq. Qed.
End subscribe_facts.

(** X4. What [subscribe] stores can be read back under its key, the
    entries under other keys are as they were, and of two [subscribe] calls
    with one context and name the second alone counts: the registry is the
    one the second call makes on its own. *)
Theorem subscribe_last_write_wins
    (context : Vscode.ExtensionContext) (ev : IBMiEvent) (nm : string)
    (f f' : Func) (tr tr' : option bool) (i : Instance.t) :
  JsMap.get (Instance.subscriptionKey context nm)
    (Instance.theSubscribers ev (Instance.subscribe context ev nm f tr i))
    = Some {| func := f; transient := tr |} ∧
  (∀ k, k ≠ Instance.subscriptionKey context nm →
     JsMap.get k (Instance.theSubscribers ev (Instance.subscribe context ev nm f tr i))
     = JsMap.get k (Instance.theSubscribers ev i)) ∧
  Instance.subscribe context ev nm f' tr' (Instance.subscribe context ev nm f tr i)
    = Instance.subscribe context ev nm f' tr' i.
Proof.
  split_and!.
  - rewrite the_subscribe, decide_True by done. apply get_set_eq.
  - intros k Hk. rewrite the_subscribe, decide_True by done. by apply get_set_ne.
  - rewrite (subscribe_put context ev nm f' tr'), the_subscribe, decide_True by done.
    rewrite set_set, (subscribe_put context ev nm f tr i), put_put.
    by rewrite <-subscribe_put.
Qed.

(** X5. Subscriptions of different extensions, or of one extension under
    different names, do not overwrite one another, provided the extension
    identifiers hold no blank: the two keys differ, and after both
    [subscribe] calls each handler is found under its own key. *)
Theorem subscriptions_of_distinct_extensions_coexist
    (id1 id2 nm1 nm2 : string) (ev : IBMiEvent) (f1 f2 : Func)
    (tr1 tr2 : option bool) (i : Instance.t) :
  lacks " " id1 → lacks " " id2 → (id1, nm1) ≠ (id2, nm2) →
  let k1 := Instance.subscriptionKey (Vscode.ofId id1) nm1 in
  let k2 := Instance.subscriptionKey (Vscode.ofId id2) nm2 in
  let i2 := Instance.subscribe (Vscode.ofId id2) ev nm2 f2 tr2
              (Instance.subscribe (Vscode.ofId id1) ev nm1 f1 tr1 i) in
  k1 ≠ k2 ∧
  JsMap.get k1 (Instance.theSubscribers ev i2) = Some {| func := f1; transient := tr1 |} ∧
  JsMap.get k2 (Instance.theSubscribers ev i2) = Some {| func := f2; transient := tr2 |}.
Proof.
  intros H1 H2 Hne k1 k2 i2.
  assert (k1 ≠ k2) as Hk.
  { intros Heq. destruct (subscriptionKey_inj _ _ _ _ H1 H2 Heq). by subst. }
  split; [done|]. subst i2. rewrite !the_subscribe, !decide_True by done.
  split.
  - rewrite get_set_ne by done. apply get_set_eq.
  - apply get_set_eq.
Qed.

(** X6. A fire of an event that has no live subscription (none was ever
    made, or the transient ones have all been called) calls nothing: the
    log is the event's timer, started and stopped, and no collection, nor
    the counter, nor the connection is changed. *)
Theorem fire_without_subscribers (ev : IBMiEvent) (i : Instance.t) :
  JsMap.entries (Instance.theSubscribers ev i) = [] →
  ∃ i',
    Instance.processEvent ev i = Some (i', [ConsoleTime ev; ConsoleTimeEnd ev]) ∧
    (∀ ev', Instance.theSubscribers ev' i' = Instance.theSubscribers ev' i) ∧
    Instance.deprecationCount i' = Instance.deprecationCount i ∧
    Instance.connection i' = Instance.connection i ∧
    Instance.storage i' = Instance.storage i.
Proof.
  intros Hnone.
  destruct (fire_quiet ev i) as (i' & Hfire & Hm & Hother & Hc & Hs & Hn).
  { unfold JsMap.wf, JsMap.keys. rewrite Hnone. constructor. }
  { unfold allQuiet. rewrite Hnone. constructor. }
  exists i'. unfold fireLog in Hfire. rewrite Hnone in Hfire. split; [exact Hfire|].
  split_and!; [|done..].
  intros ev'. destruct (decide (ev' = ev)) as [->|Hne]; [|by apply Hother].
  rewrite Hm. clear -Hnone. induction (Instance.theSubscribers ev i) as [|s m IH]; [done|].
  destruct s as [e|]; [done|]. simpl. f_equal. by apply IH.
Qed.

(** ** Further properties: handlers that subscribe *)

Section lasting_facts.
Import Instance.
Implicit Types (i : Instance.t) (ev : IBMiEvent)
  (m : list (option (string * IBMiEventSubscription))).

Lemma lasting_body f : lasting f ↔ Forall lastingCall (funcBody f).
Proof.
  destruct f as [nm body out]. simpl.
  induction body as [|c body IH]; simpl.
  - split; [constructor|done].
  - rewrite Forall_cons, IH. by destruct c.
Qed.

Lemma allLasting_set k (v : IBMiEventSubscription) m :
  isTransient v = false → lasting (func v) → allLasting m →
  allLasting (JsMap.set k v m).
Proof.
  intros Ht Hl. unfold allLasting, JsMap.entries.
  induction m as [|s m IH]; simpl.
  - intros _. by repeat constructor.
  - destruct (JsMap.holds k s) eqn:Hs.
    + apply holds_true in Hs as [v0 ->]. simpl.
      rewrite !Forall_cons. intros [_ ?]. by split.
    + destruct s as [e|]; simpl; [|done].
      rewrite !Forall_cons. intros [? ?]. split; [done|]. by apply IH.
Qed.

Lemma applyCall_lasting ev c i :
  lastingCall c → allLasting (theSubscribers ev i) →
  allLasting (theSubscribers ev (applyCall c i).1).
Proof.
  destruct c as [extensionId ev0 nm f tr|ev0 f]; unfold applyCall; cbn [fst].
  - intros [Htr Hf] Hm. rewrite the_subscribe. case_decide; [|done]. subst.
    apply allLasting_set; [|done..]. unfold isTransient. simpl.
    by destruct tr as [[]|].
  - intros Hf Hm. rewrite the_onEvent. case_decide; [|done]. subst.
    by apply allLasting_set.
Qed.

Lemma applyCalls_lasting ev cs i :
  Forall lastingCall cs → allLasting (theSubscribers ev i) →
  allLasting (theSubscribers ev (applyCalls cs i).1).
Proof.
  revert i. induction cs as [|c cs IH]; intros i; simpl; [done|].
  intros [Hc Hcs]%Forall_cons Hm.
  pose proof (applyCall_lasting ev c i Hc Hm) as H1.
  destruct (applyCall c i) as [i1 l1]. specialize (IH i1 Hcs H1).
  by destruct (applyCalls cs i1) as [i2 l2].
Qed.

Lemma keys_drop_live m n k (c : IBMiEventSubscription) :
  m !! n = Some (Some (k, c)) → JsMap.keys (drop n m) = k :: JsMap.keys (drop (S n) m).
Proof. intros H. by rewrite (drop_S _ _ _ H). Qed.

Lemma keys_drop_hole m n :
  m !! n = Some None → JsMap.keys (drop n m) = JsMap.keys (drop (S n) m).
Proof. intros H. by rewrite (drop_S _ _ _ H). Qed.

(** Without a transient subscription the loop deletes nothing: the
    records only grow in number, and the keys called are the keys of the
    records from the iterator on, as they stand when the loop ends. *)
Lemma loop_lasting fuel ev n i i' log :
  processLoop fuel ev n i = Some (i', log) →
  JsMap.wf (theSubscribers ev i) → allLasting (theSubscribers ev i) →
  (∃ more, JsMap.skeleton (theSubscribers ev i')
           = JsMap.skeleton (theSubscribers ev i) ++ more) ∧
  invokedKeys log = JsMap.keys (drop n (theSubscribers ev i')) ∧
  JsMap.wf (theSubscribers ev i') ∧ allLasting (theSubscribers ev i').
Proof.
  revert n i i' log. induction fuel as [|fuel IH]; intros n i i' log; [done|].
  simpl. destruct (theSubscribers ev i !! n) as [[[k c]|]|] eqn:Hn.
  - intros Hloop Hwf Hall.
    assert (isTransient c = false ∧ lasting (func c)) as [Htr Hc].
    { unfold allLasting in Hall. rewrite Forall_forall in Hall.
      apply (Hall (k, c)). by eapply entries_lookup. }
    pose proof (the_loopBody ev k c i) as Hthe. rewrite Htr in Hthe. unfold id in Hthe.
    pose proof (loopBody_log ev k c i) as Hlog.
    destruct (applyCalls_grow ev (funcBody (func c)) i) as [more1 Hmore1].
    pose proof (applyCalls_wf ev (funcBody (func c)) i Hwf) as Hwf1.
    pose proof (applyCalls_lasting ev (funcBody (func c)) i
                  (proj1 (lasting_body _) Hc) Hall) as Hall1.
    destruct (loopBody ev k c i) as [i1 l1]. cbn [fst snd] in *.
    rewrite <-Hthe in Hmore1, Hwf1, Hall1.
    destruct (processLoop fuel ev (S n) i1) as [[i2 l2]|] eqn:Hrest; [|done].
    injection Hloop as <- <-.
    destruct (IH _ _ _ _ Hrest Hwf1 Hall1) as ([more2 Hmore2] & Hkeys & Hwf2 & Hall2).
    assert (JsMap.skeleton (theSubscribers ev i2) !! n = Some (Some k)) as Hsk.
    { rewrite Hmore2, Hmore1, <-app_assoc, lookup_app_l.
      - by rewrite skeleton_lookup, Hn.
      - unfold JsMap.skeleton. rewrite length_fmap. by eapply lookup_lt_Some. }
    rewrite skeleton_lookup in Hsk.
    destruct (theSubscribers ev i2 !! n) as [[[k' c']|]|] eqn:Hn2; try done.
    injection Hsk as ->.
    split_and!; [|by rewrite invokedKeys_app, Hkeys, (keys_drop_live _ _ _ _ Hn2);
                     unfold invokedKeys; rewrite Hlog|done..].
    exists (more1 ++ more2). by rewrite Hmore2, Hmore1, app_assoc.
  - intros Hloop Hwf Hall.
    destruct (IH _ _ _ _ Hloop Hwf Hall) as ([more Hmore] & Hkeys & Hwf2 & Hall2).
    assert (JsMap.skeleton (theSubscribers ev i') !! n = Some None) as Hsk.
    { rewrite Hmore, lookup_app_l.
      - by rewrite skeleton_lookup, Hn.
      - unfold JsMap.skeleton. rewrite length_fmap. by eapply lookup_lt_Some. }
    rewrite skeleton_lookup in Hsk.
    destruct (theSubscribers ev i' !! n) as [[e|]|] eqn:Hn2; try done.
    split_and!; [by exists more|by rewrite (keys_drop_hole _ _ Hn2)|done..].
  - intros [= <- <-] Hwf Hall. split_and!; [|..|done|done].
    + exists []. by rewrite app_nil_r.
    + apply lookup_ge_None in Hn. by rewrite drop_ge.
Qed.
End lasting_facts.

(** X7. Without transient subscriptions no key is called twice in a
    fire: when no subscription of the event is transient, no handler makes
    a transient one, and the fire has come to its end, the keys called are
    exactly the keys of the collection as the fire leaves it, in its order
    and each once, and every key that was there before is still there.
    (A function subscribed under two keys is called under each; and
    whether the fire ends is no part of this.) *)
Theorem lasting_keys_are_called_once (ev : IBMiEvent) (i i' : Instance.t)
    (log : list LogEntry) :
  JsMap.wf (Instance.theSubscribers ev i) →
  allLasting (Instance.theSubscribers ev i) →
  Instance.processEvent ev i = Some (i', log) →
  invokedKeys log = JsMap.keys (Instance.theSubscribers ev i') ∧
  NoDup (invokedKeys log) ∧
  (∃ added,
     JsMap.keys (Instance.theSubscribers ev i')
     = JsMap.keys (Instance.theSubscribers ev i) ++ added) ∧
  allLasting (Instance.theSubscribers ev i').
Proof.
  intros Hwf Hall.
  destruct (processEvent_loop ev i) as (i1 & l & Hloop & ->). intros Hfire.
  assert (i' = i1 ∧ log = [ConsoleTime ev] ++ l ++ [ConsoleTimeEnd ev]) as [-> ->]
    by (by injection Hfire).
  destruct (loop_lasting _ _ _ _ _ _ Hloop) as ([more Hmore] & Hkeys & Hwf' & Hall').
  { by rewrite the_getSubscribers. }
  { by rewrite the_getSubscribers. }
  rewrite drop_0 in Hkeys. rewrite the_getSubscribers in Hmore.
  rewrite invokedKeys_fire, Hkeys.
  split_and!; [done|exact Hwf'| |done].
  exists (omap id more).
  by rewrite <-!skeleton_keys, Hmore, omap_app.
Qed.

(** ** Further properties: the orchestrator *)

Section attempts_facts.
Import Instance.
Implicit Types (w : World) (tr : list Effect) (options : ConnectionOptions).


Lemma dialogs_app t1 t2 : dialogs (t1 ++ t2) = dialogs t1 ++ dialogs t2.
Proof. unfold dialogs. by rewrite filter_app. Qed.

Lemma connectCalls_app t1 t2 : connectCalls (t1 ++ t2) = connectCalls t1 ++ connectCalls t2.
Proof. unfold connectCalls. by rewrite omap_app. Qed.

Lemma setConnection_some conn w :
  setConnection (Some conn) w
  = (storeLast (currentConnectionName conn)
       (install (Some conn) (currentConnectionName conn) w),
     disposeCurrent w ++
     [SetDisconnectedCallback conn; Install (Some conn);
      StoreConnectionName (currentConnectionName conn);
      StoreLastConnection (currentConnectionName conn);
      Fire "connected"
        (observe (storeLast (currentConnectionName conn)
                    (install (Some conn) (currentConnectionName conn) w)));
      SetContext "code-for-ibmi:connected" true]).
Proof. done. Qed.





Lemma contextValue_disposeCurrent w : omap contextValue (disposeCurrent w) = [].
Proof. unfold disposeCurrent. by destruct (connection (self w)). Qed.

Lemma contextValue_cons e tr :
  omap contextValue (e :: tr) = option_list (contextValue e) ++ omap contextValue tr.
Proof. simpl. by destruct (contextValue e). Qed.

Lemma connectedContext_app t1 t2 :
  connectedContext (t1 ++ t2)
  = match connectedContext t2 with
    | Some v => Some v
    | None => connectedContext t1
    end.
Proof. unfold connectedContext. by rewrite omap_app, last_app. Qed.

Lemma connectedContext_disconnect w : connectedContext (disconnect w).2 = Some false.
Proof.
  rewrite disconnect_spec. cbn [snd]. unfold connectedContext.
  by rewrite !omap_app, contextValue_disposeCurrent.
Qed.

Lemma connectLoop_context script options conn w r w' tr :
  connectLoop script options conn w = Some (Returned r, w', tr) →
  connectedContext tr = Some (success r).
Proof.
  revert script options w r w' tr. apply connectLoop_turns.
  - intros a script options w ->. rewrite setConnection_some. cbn [snd].
    unfold connectedContext. rewrite contextValue_cons. cbn [contextValue option_list].
    by rewrite omap_app, contextValue_disposeCurrent.
  - intros a script options w r w2 t2 _ _ _ _ IH.
    rewrite (app_assoc _ _ t2), app_comm_cons, connectedContext_app. by rewrite IH.
  - intros a script options w -> _.
    destruct (truthy (reconnecting options)).
    + rewrite app_comm_cons, connectedContext_app.
      unfold connectedContext at 1. cbn [omap contextValue last].
      unfold connectedContext. rewrite contextValue_cons. cbn [contextValue option_list app].
      apply connectedContext_disconnect.
    + rewrite app_nil_r. unfold connectedContext. rewrite contextValue_cons.
      apply connectedContext_disconnect.
Qed.

Lemma connectCalls_disposeCurrent w : connectCalls (disposeCurrent w) = [].
Proof. unfold disposeCurrent. by destruct (connection (self w)). Qed.

Lemma dialogs_disposeCurrent w : dialogs (disposeCurrent w) = [].
Proof. unfold disposeCurrent. by destruct (connection (self w)). Qed.

Lemma quiet_disconnect w : connectCalls (disconnect w).2 = [] ∧ dialogs (disconnect w).2 = [].
Proof.
  rewrite disconnect_spec. cbn [snd].
  by rewrite !connectCalls_app, !dialogs_app, connectCalls_disposeCurrent,
    dialogs_disposeCurrent.
Qed.

Lemma quiet_setConnection conn w :
  connectCalls (setConnection (Some conn) w).2 = [] ∧
  dialogs (setConnection (Some conn) w).2 = [].
Proof.
  rewrite setConnection_some. cbn [snd].
  by rewrite !connectCalls_app, !dialogs_app, connectCalls_disposeCurrent,
    dialogs_disposeCurrent.
Qed.

Lemma connectCalls_cons e tr :
  connectCalls (e :: tr) = option_list (connectCall e) ++ connectCalls tr.
Proof. unfold connectCalls. simpl. by destruct (connectCall e). Qed.

Lemma dialogs_cons e tr :
  dialogs (e :: tr) = (if isDialog e then [e] else []) ++ dialogs tr.
Proof.
  unfold dialogs. rewrite filter_cons. by destruct (isDialog e).
Qed.

(** The attempts of one [connect]: [n] of them retried, then the one
    whose result is returned. *)
Lemma connectLoop_attempts script options conn w r w' tr :
  connectLoop script options conn w = Some (Returned r, w', tr) →
  ∃ n a,
    script !! n = Some a ∧ r = attemptResult a ∧
    Forall retried (take n script) ∧
    connectCalls tr
      = (conn, reconnecting options, reloadServerSettings options)
        :: replicate n (conn, Some true, reloadServerSettings options) ∧
    length (dialogs tr)
      = (if truthy (reconnecting options) && negb (success r) then S n else n) ∧
    (truthy (reconnecting options) = false → n = 0).
Proof.
  revert script options w r w' tr. apply connectLoop_turns.
  - intros a script options w Hr. exists 0, a.
    destruct (quiet_setConnection conn w) as [Hc Hd].
    rewrite connectCalls_cons, dialogs_cons, Hc, Hd, Hr, andb_false_r.
    split_and!; done.
  - intros a script options w r w2 t2 Hr Ht Hy _ (n & a' & Hn & -> & Hall & Hc & Hd & _).
    exists (S n), a'. destruct (quiet_disconnect w) as [Hc1 Hd1].
    rewrite connectCalls_cons, dialogs_cons, !connectCalls_app, !dialogs_app, Hc1, Hd1, Hc.
    rewrite !length_app, Hd, Ht. cbn [take].
    split_and!; try done.
    + by constructor.
    + simpl. by destruct (success (attemptResult a')).
  - intros a script options w Hr Hstop. exists 0, a.
    destruct (quiet_disconnect w) as [Hc1 Hd1].
    rewrite connectCalls_cons, dialogs_cons, !connectCalls_app, !dialogs_app, Hc1, Hd1, Hr.
    destruct (truthy (reconnecting options)); split_and!; done.
Qed.
End attempts_facts.

Section sync_facts.
Import Instance.

Lemma connectLoop_inSync script options conn w c w' tr :
  connectLoop script options conn w = Some (c, w', tr) →
  inSync w → handleId conn < handles w → inSync w'.
Proof.
  revert script options w c w' tr.
  apply (connectLoop_completes conn
           (λ _ _ w _ w' _, inSync w → handleId conn < handles w → inSync w')).
  - intros a script options w _ _ _ Hlt. rewrite setConnection_some. by split_and!.
  - intros a script options w c w2 t2 _ _ _ _ _ IH _ Hlt. apply IH.
    + by rewrite disconnect_spec.
    + by rewrite disconnect_spec.
  - intros a script options w _ _ _ _ _. by rewrite disconnect_spec.
  - done.
Qed.

Lemma reachable_inSync w : reachable w → inSync w.
Proof.
  induction 1 as [|options script w c w' tr _ IHw Hc|w _ _|w _ _|s n w _ IH].
  - done.
  - assert (inSync {| self := self w; GlobalStorage := GlobalStorage w;
                      handles := S (handles w) |}) as Hsync.
    { unfold inSync, getConnection in *. cbn [self GlobalStorage handles].
      destruct (connection (self w)); [|done].
      destruct IHw as (? & ? & ?). split_and!; [done..|lia]. }
    destruct c as [r|].
    + apply connect_returned in Hc as (t1 & Hloop & _).
      eapply connectLoop_inSync; [done|done|]. simpl. lia.
    + apply connect_threw in Hc as (t1 & Hloop & _).
      eapply connectLoop_inSync; [done|done|]. simpl. lia.
  - by rewrite disconnect_spec.
  - unfold disconnectedCallback. by destruct (connection (self w)).
  - exact IH.
Qed.
End sync_facts.

(** X9. The connection storage follows the connection: in every world
    the orchestrator gets to, the stored connection name is the name of
    the current handle, or empty when there is none; while there is a
    current handle the global record of the last connection names it too;
    and the current handle is never the one the next [connect] makes. *)
Theorem storage_follows_the_connection (w : Instance.World) :
  reachable w →
  inSync w ∧ ∀ options, Instance.getConnection w ≠ Some (newHandle options w).
Proof.
  intros Hw. pose proof (reachable_inSync w Hw) as Hsync. split; [done|].
  intros options Hnew. unfold inSync in Hsync. rewrite Hnew in Hsync.
  destruct Hsync as (_ & _ & Hlt). simpl in Hlt. lia.
Qed.


(** X11. The attempts of one [connect] are all made on the handle it
    made, with [reloadServerSettings] as given; the first has
    [reconnecting] as given and every later one has it [true].  A later
    attempt is made only after a failed one that the user answered with
    [Yes]; the result returned is that of the last attempt; the dialog is
    shown once for each failed attempt of a reconnection, and a [connect]
    that is no reconnection makes one attempt and shows no dialog. *)
Theorem connect_makes_its_attempts_on_one_handle
    (options : ConnectionOptions) (script : list Attempt) (w w' : Instance.World)
    (r : ConnectionResult) (tr : list Effect) :
  Instance.connect options script w = Some (Returned r, w', tr) →
  ∃ n a,
    script !! n = Some a ∧ r = attemptResult a ∧
    Forall retried (take n script) ∧
    connectCalls tr
      = (newHandle options w, reconnecting options, reloadServerSettings options)
        :: replicate n (newHandle options w, Some true, reloadServerSettings options) ∧
    length (dialogs tr)
      = (if truthy (reconnecting options) && negb (success r) then S n else n) ∧
    (truthy (reconnecting options) = false → n = 0 ∧ dialogs tr = []).
Proof.
  intros (t1 & Hloop & ->)%connect_returned.
  destruct (connectLoop_attempts _ _ _ _ _ _ _ Hloop)
    as (n & a & Hn & Hr & Hall & Hc & Hd & Hone).
  assert (connectCalls (OutputClear :: t1 ++
            (if success r then [] else [Dispose (newHandle options w)]))
          = connectCalls t1) as Hcalls.
  { rewrite connectCalls_cons, connectCalls_app.
    destruct (success r); simpl; by rewrite app_nil_r. }
  assert (dialogs (OutputClear :: t1 ++
            (if success r then [] else [Dispose (newHandle options w)]))
          = dialogs t1) as Hdialogs.
  { rewrite dialogs_cons, dialogs_app.
    destruct (success r); simpl; by rewrite app_nil_r. }
  exists n, a. rewrite Hcalls, Hdialogs. split_and!; try done.
  intros Hno. specialize (Hone Hno). subst n. split; [done|].
  rewrite Hno in Hd. simpl in Hd. by apply nil_length_inv.
Qed.

(** X12. When [connect] returns, the context key
    [code-for-ibmi:connected] has been left with the value of the result's
    [success], whatever attempts came before. *)
Theorem connected_context_matches_result
    (options : ConnectionOptions) (script : list Attempt) (w w' : Instance.World)
    (r : ConnectionResult) (tr : list Effect) :
  Instance.connect options script w = Some (Returned r, w', tr) →
  connectedContext tr = Some (success r).
Proof.
  intros (t1 & Hloop & ->)%connect_returned.
  pose proof (connectLoop_context _ _ _ _ _ _ _ Hloop) as Hctx.
  rewrite app_comm_cons, connectedContext_app.
  assert (connectedContext (if success r then [] else [Dispose (newHandle options w)])
          = None) as -> by by destruct (success r).
  unfold connectedContext in *. rewrite contextValue_cons. exact Hctx.
Qed.

(** X13. The listeners of [disconnected] are called while the lost
    connection is still the current one: when the callback of a lost
    connection runs in a world with current handle [h], [dispose] has been
    called on [h], the event is fired with [h] still current and still
    named by the connection storage, and only then is the connection
    cleared. *)
Theorem disconnected_is_fired_before_the_connection_is_cleared
    (w : Instance.World) (h : Handle) :
  reachable w → Instance.getConnection w = Some h →
  ∃ seen rest,
    (Instance.disconnectedCallback w).2
      = Dispose h :: Fire "disconnected" seen :: Install None :: rest ∧
    seenConnection seen = Some h ∧
    seenConnectionName seen = currentConnectionName h ∧
    seenLastConnection seen = currentConnectionName h ∧
    Instance.getConnection (Instance.disconnectedCallback w).1 = None.
Proof.
  intros Hw Hh. pose proof (reachable_inSync w Hw) as Hsync.
  unfold inSync in Hsync. rewrite Hh in Hsync. destruct Hsync as (Hname & Hlast & _).
  unfold Instance.disconnectedCallback, Instance.disposeCurrent, Instance.getConnection in *.
  rewrite Hh. cbn [Instance.setConnectionRest fst snd app Instance.fire].
  eexists _, _. split; [reflexivity|]. by split_and!.
Qed.

(** ** Further properties: the documents and the earlier emitter *)

Section shown_facts.
Import Instantiate.

Lemma closedAfter_end previous tr h :
  closedAfter previous (tr ++ [End_ h]) = closedAfter previous tr.
Proof.
  revert previous. induction tr as [|e tr IH]; intros previous; [done|].
  simpl. by rewrite IH.
Qed.

Lemma logged_cons e tr : logged (e :: tr) = option_list (loggedDocument e) ++ logged tr.
Proof. unfold logged. simpl. by destruct (loggedDocument e). Qed.

Lemma shown_cons e tr : shown (e :: tr) = option_list (shownDocument e) ++ shown tr.
Proof. unfold shown. simpl. by destruct (shownDocument e). Qed.

(** What the loop over the documents does to each of them. *)
Lemma documentsLoop_shown textDocuments doDisconnect previous :
  let tr := (documentsLoop textDocuments doDisconnect).2 in
  logged tr = textDocuments ∧
  closedAfter previous tr = Some <$> filter (λ d, saved d = true) textDocuments ∧
  filter (λ d, Vscode.isDirty d = false) (shown tr)
    = filter (λ d, saved d = true) textDocuments ∧
  filter (λ d, Vscode.isDirty d = true) (shown tr)
    = (if doDisconnect then take 1 (filter (λ d, unsaved d = true) textDocuments) else []).
Proof.
  cbn zeta. revert doDisconnect previous.
  induction textDocuments as [|d docs IH]; intros b previous.
  { simpl. by destruct b. }
  cbn [documentsLoop].
  assert (saved d = connectionBacked d && negb (Vscode.isDirty d)) as Hsaved by done.
  assert (unsaved d = connectionBacked d && Vscode.isDirty d) as Hunsaved by done.
  rewrite !filter_cons, Hsaved, Hunsaved. clear Hsaved Hunsaved.
  destruct (connectionBacked d), (Vscode.isDirty d) eqn:Hd, b;
    cbn [andb negb];
    lazymatch goal with
    | |- context [documentsLoop docs ?b'] =>
        pose proof (λ p, IH b' p) as IH';
        destruct (documentsLoop docs b') as [final later]
    end; cbn [fst snd app] in *;
    rewrite !logged_cons, !shown_cons;
    cbn [app loggedDocument shownDocument option_list closedAfter isClose];
    rewrite ?bool_decide_eq_true_2 by done;
    cbn [app];
    lazymatch goal with
    | |- context [closedAfter ?p _] => destruct (IH' p) as (I1 & I2 & I3 & I4)
    end.
  all: simpl.
  all: rewrite ?filter_cons, ?Hd.
  all: simpl.
  all: rewrite ?I1, ?I2, ?I3, ?I4.
  all: try done.
  all: by destruct (filter _ docs).
Qed.
End shown_facts.

(** X15. What [disconnect] of instantiate.ts does to the open documents,
    whether it then goes on to disconnect or not: every document is
    logged, in workspace order; every open document of the connection
    that has nothing to save is shown and its editor closed, the
    [closeActiveEditor] command coming right after the document is shown;
    and of the unsaved documents of the connection the first one alone is
    shown.  No other document is touched. *)
Theorem disconnect_closes_the_saved_documents
    (textDocuments : list Vscode.TextDocument) (instance : Instance.t) :
  let tr := (Instantiate.disconnect textDocuments instance).2 in
  logged tr = textDocuments ∧
  closedDocuments tr = Some <$> filter (λ d, saved d = true) textDocuments ∧
  filter (λ d, Vscode.isDirty d = false) (shown tr)
    = filter (λ d, saved d = true) textDocuments ∧
  filter (λ d, Vscode.isDirty d = true) (shown tr)
    = take 1 (filter (λ d, unsaved d = true) textDocuments).
Proof.
  cbn zeta. unfold Instantiate.disconnect, closedDocuments.
  pose proof (documentsLoop_shown textDocuments true None) as H. cbn zeta in H.
  destruct (Instantiate.documentsLoop textDocuments true) as [b t1]. cbn [snd] in H.
  destruct H as (H1 & H2 & H3 & H4).
  destruct b; [destruct (Instance.connection instance) as [h|]|]; cbn [snd]; try done.
  unfold logged, shown in *. rewrite closedAfter_end, !omap_app. simpl.
  by rewrite !app_nil_r.
Qed.

(** X16. The listener of [setupEmitter] calls the handlers recorded for
    the event, and no others, in the order of [instance.events]; and it
    stops at the first call that throws: either every such handler is
    called and has returned, or the last one called has thrown, those
    before it have returned, and those after it are not called.  Right
    after [setupEmitter] no handler is called at all. *)
Theorem legacy_listener_stops_at_the_first_throw
    (events : list Legacy.Registration) (e : IBMiEvent) :
  (∃ rest,
     Legacy.func <$> filter (λ r, Legacy.event r = e) events
       = (Legacy.listener events e).1 ++ rest ∧
     match (Legacy.listener events e).2 with
     | Returns =>
         rest = [] ∧
         Forall (λ f, funcOutcome f = Returns) (Legacy.listener events e).1
     | Throws =>
         ∃ before f,
           (Legacy.listener events e).1 = before ++ [f] ∧ funcOutcome f = Throws ∧
           Forall (λ f, funcOutcome f = Returns) before
     end) ∧
  Legacy.listener Legacy.setupEmitter e = ([], Returns).
Proof.
  split; [|done]. unfold Legacy.listener. cbn zeta.
  induction (filter (λ r, Legacy.event r = e) events)
    as [|r runEvents (rest & Hrest & IH)]; simpl.
  { exists []. by split. }
  destruct (funcOutcome (Legacy.func r)) eqn:Hr.
  - destruct (Legacy.forEach runEvents) as [calls out]. simpl in *. exists rest.
    split; [by f_equal|]. destruct out.
    + destruct IH as [-> IH]. split; [done|]. by constructor.
    + destruct IH as (before & f & -> & Hf & Hall).
      exists (Legacy.func r :: before), f. split_and!; [done..|]. by constructor.
  - exists (Legacy.func <$> runEvents). split; [done|]. by exists [], (Legacy.func r).
Qed.

(** ** Further properties: the commands *)

Section string_facts.

Lemma append_cons (c : ascii) (s t : string) : String c s +:+ t = String c (s +:+ t).
Proof. done. Qed.

Lemma append_one (c : ascii) (s : string) : String c "" +:+ s = String c s.
Proof. done. Qed.

Lemma append_assoc (a b c : string) : (a +:+ b) +:+ c = a +:+ (b +:+ c).
Proof. induction a as [|x a IH]; [done|]. by rewrite !append_cons, IH. Qed.

Lemma append_inv_head (a x y : string) : a +:+ x = a +:+ y → x = y.
Proof.
  induction a as [|c a IH]; [done|]. rewrite !append_cons. intros [= H]. by apply IH.
Qed.

Lemma append_length (a b : string) :
  String.length (a +:+ b) = String.length a + String.length b.
Proof. induction a as [|c a IH]; [done|]. rewrite append_cons. simpl. by rewrite IH. Qed.

Lemma append_inv_tail (a b x : string) : a +:+ x = b +:+ x → a = b.
Proof.
  revert b. induction a as [|c a IH]; intros [|d b] H.
  - done.
  - apply (f_equal String.length) in H. rewrite !append_length in H. simpl in H. lia.
  - apply (f_equal String.length) in H. rewrite !append_length in H. simpl in H. lia.
  - rewrite !append_cons in H. injection H as -> H. f_equal. by apply IH.
Qed.

Lemma endsWith_spec (s suffix : string) :
  JsString.endsWith s suffix = true ↔ ∃ p, s = p +:+ suffix.
Proof.
  induction s as [|c s IH]; simpl.
  - rewrite orb_false_r, bool_decide_eq_true. split.
    + intros <-. by exists "".
    + intros [[|c p] H]; [done|by rewrite append_cons in H].
  - rewrite orb_true_iff, bool_decide_eq_true, IH. split.
    + intros [<-|[p ->]]; [by exists ""|by exists (String c p)].
    + intros [[|c' p] H]; [by left|].
      rewrite append_cons in H. injection H as -> ->. right. by exists p.
Qed.

Lemma lacks_not_app (c : ascii) (a b : string) : ¬ lacks c (a +:+ String c b).
Proof. intros H. apply lacks_app in H as [_ [H _]]. done. Qed.

(** [split] cuts at the first separator and goes on behind it. *)
Lemma split_lacks (c : ascii) (s : string) : lacks c s → JsString.split c s = [s].
Proof.
  induction s as [|x s IH]; simpl; [done|]. intros [Hx Hs].
  by rewrite bool_decide_eq_false_2, IH.
Qed.

Lemma split_cut (c : ascii) (a b : string) :
  lacks c a → JsString.split c (a +:+ String c b) = a :: JsString.split c b.
Proof.
  induction a as [|x a IH].
  - intros _. simpl. by rewrite bool_decide_eq_true_2.
  - intros [Hx Ha]. rewrite append_cons. simpl. by rewrite bool_decide_eq_false_2, IH.
Qed.

Lemma split_inv (c : ascii) (s : string) :
  ∃ part parts,
    JsString.split c s = part :: parts ∧ lacks c part ∧
    (parts = [] ∧ s = part
     ∨ ∃ s', s = part +:+ String c s' ∧ parts = JsString.split c s').
Proof.
  induction s as [|x s (part & parts & Hs & Hpart & IH)]; simpl.
  { exists "", []. split_and!; [done..|by left]. }
  case_bool_decide as Hx.
  - subst x. exists "", (JsString.split c s). split_and!; [done..|].
    right. by exists s.
  - rewrite Hs. exists (String x part), parts. split_and!; [done|by split|].
    destruct IH as [[-> ->]|(s' & -> & ->)]; [by left|]. right. by exists s'.
Qed.
End string_facts.

Section goToFile_facts.
Import GoToFile.

(** The path is the directory without its closing [/], a [/], and the
    source. *)
Lemma sourcePath_base dir source :
  ∃ base, sourcePath dir source = base +:+ String "/" source ∧
          (dir = base ∧ JsString.endsWith dir "/" = false ∨ dir = base +:+ "/").
Proof.
  unfold sourcePath. destruct (JsString.endsWith dir "/") eqn:He.
  - apply endsWith_spec in He as [p ->]. exists p. rewrite append_assoc. auto.
  - exists dir. auto.
Qed.

Lemma sourcePath_slash dir source : ¬ lacks "/" (sourcePath dir source).
Proof.
  unfold sourcePath. destruct (JsString.endsWith dir "/") eqn:He.
  - apply endsWith_spec in He as [p ->]. rewrite append_assoc. simpl.
    apply lacks_not_app.
  - apply lacks_not_app.
Qed.
End goToFile_facts.

(** X17. The quick pick of [goToFile] ends with the item [Clear list],
    and no path made from the stored sources can be taken for it: every
    such path is among the items, holds a [/], and accepting it opens that
    path at line 0 and clears nothing, while accepting [Clear list] empties
    the stored list and opens nothing. *)
Theorem goToFile_keeps_clear_list_apart
    (sources : GoToFile.SourceList) (dir source : string) (sourcesOfDir : list string)
    (readonly : option bool) :
  (dir, sourcesOfDir) ∈ sources → source ∈ sourcesOfDir →
  GoToFile.sourcePath dir source ∈ GoToFile.items sources ∧
  GoToFile.sourcePath dir source ≠ "Clear list" ∧
  GoToFile.onDidAccept [GoToFile.sourcePath dir source] readonly
    = Some [GoToFile.OpenEditable (GoToFile.sourcePath dir source) 0 readonly;
            GoToFile.Hide] ∧
  last (GoToFile.items sources) = Some "Clear list" ∧
  GoToFile.onDidAccept ["Clear list"] readonly
    = Some [GoToFile.SetSourceList []; GoToFile.ShowInformationMessage "Cleared list.";
            GoToFile.Hide].
Proof.
  intros Hdir Hsource.
  pose proof (sourcePath_slash dir source) as Hslash.
  assert (GoToFile.sourcePath dir source ≠ "Clear list") as Hne.
  { intros Heq. apply Hslash. rewrite Heq. simpl. by repeat split. }
  assert (GoToFile.sourcePath dir source ≠ "") as Hne'.
  { intros Heq. apply Hslash. by rewrite Heq. }
  split_and!; [|done| | |done].
  - unfold GoToFile.items. apply elem_of_app. left. apply list_elem_of_In, in_flat_map.
    exists (dir, sourcesOfDir). split; [by apply list_elem_of_In|].
    apply list_elem_of_In. simpl. by apply list_elem_of_fmap_2.
  - unfold GoToFile.onDidAccept. by rewrite !bool_decide_eq_false_2.
  - unfold GoToFile.items. by rewrite last_snoc.
Qed.

(** X18. In a path of [goToFile] the source follows the directory after
    exactly one [/]: a directory recorded with a closing [/] and the same
    directory recorded without it give the same path.  And the path tells
    its source: two paths whose sources hold no [/] are the same only if
    the sources are the same and the directories differ at most by a
    closing [/]. *)
Theorem goToFile_paths_tell_their_source (dir dir' source source' : string) :
  lacks "/" source → lacks "/" source' →
  (JsString.endsWith dir "/" = false →
   GoToFile.sourcePath (dir +:+ "/") source = GoToFile.sourcePath dir source) ∧
  (GoToFile.sourcePath dir source = GoToFile.sourcePath dir' source' →
   source = source' ∧ (dir = dir' ∨ dir = dir' +:+ "/" ∨ dir' = dir +:+ "/")).
Proof.
  intros Hs Hs'. split.
  { intros He. unfold GoToFile.sourcePath. rewrite He.
    assert (JsString.endsWith (dir +:+ "/") "/" = true) as ->.
    { apply endsWith_spec. by exists dir. }
    by rewrite append_assoc. }
  destruct (sourcePath_base dir source) as (base & -> & Hd).
  destruct (sourcePath_base dir' source') as (base' & -> & Hd').
  intros Heq. pose proof (last_cut _ _ _ _ _ Hs Hs' Heq) as <-. split; [done|].
  apply append_inv_tail in Heq as <-.
  destruct Hd as [[-> _]| ->], Hd' as [[-> _]| ->]; auto.
Qed.

(** X19. [openErrors] takes an answer for a library and an object exactly
    when the answer starts with a non-empty part without [/], a [/], and a
    second non-empty part, which ends at the next [/] or at the end of the
    answer: whatever follows a second [/] is ignored.  Every other answer
    that is not empty gets the error message, and an empty or dismissed
    answer gets nothing. *)
Theorem openErrors_reads_library_and_object (selection library object : string) :
  (OpenErrors.accept (Some selection) = [OpenErrors.RefreshDiagnostics library object]
   ↔ library ≠ "" ∧ object ≠ "" ∧ lacks "/" library ∧ lacks "/" object ∧
     (selection = library +:+ "/" +:+ object
      ∨ ∃ more, selection = library +:+ "/" +:+ object +:+ "/" +:+ more)) ∧
  (selection ≠ "" →
   OpenErrors.accept (Some selection)
     = [OpenErrors.ShowErrorMessage "Format incorrect. Use LIB/OBJECT"]
   ∨ ∃ lib obj,
       OpenErrors.accept (Some selection) = [OpenErrors.RefreshDiagnostics lib obj]) ∧
  OpenErrors.accept (Some "") = [] ∧ OpenErrors.accept None = [].
Proof.
  split_and!; [|..|done|done].
  - unfold OpenErrors.accept. split.
    + case_bool_decide as Hsel; [done|].
      destruct (split_inv "/" selection) as (part & parts & Hs & Hpart & Hrest).
      rewrite Hs. cbn [lookup list_lookup].
      destruct Hrest as [[-> ->]|(s' & -> & ->)]; [done|].
      destruct (split_inv "/" s') as (part' & parts' & Hs' & Hpart' & Hrest').
      rewrite Hs'. cbn [lookup list_lookup].
      destruct (bool_decide (part ≠ "")) eqn:H1, (bool_decide (part' ≠ "")) eqn:H2;
        cbn [andb]; try done.
      apply bool_decide_eq_true in H1, H2. intros [= <- <-].
      split_and!; [done..|].
      destruct Hrest' as [[_ ->]|(s'' & -> & _)]; [by left|right; by exists s''].
    + intros (Hl & Ho & Hll & Hlo & Hsel).
      assert (selection ≠ "") as Hne.
      { destruct Hsel as [->|[more ->]]; by destruct library. }
      rewrite bool_decide_eq_false_2 by done.
      assert (∃ parts, JsString.split "/" selection = library :: object :: parts)
        as [parts ->].
      { destruct Hsel as [->|[more ->]]; rewrite !append_one.
        - exists []. by rewrite split_cut, split_lacks.
        - exists (JsString.split "/" more). by rewrite split_cut, split_cut. }
      cbn [lookup list_lookup]. by rewrite !bool_decide_eq_true_2.
  - intros Hne. unfold OpenErrors.accept.
    rewrite bool_decide_eq_false_2 by done.
    destruct (JsString.split "/" selection !! 0) as [lib|]; [|by left].
    destruct (JsString.split "/" selection !! 1) as [obj|]; [|by left].
    destruct (bool_decide (lib ≠ "") && bool_decide (obj ≠ "")); [|by left].
    right. by exists lib, obj.
Qed.

Section secret_facts.
Import Secret.

Lemma connectionKey_inj h h' key key' :
  lacks "_" (currentConnectionName h) → lacks "_" (currentConnectionName h') →
  connectionKey h key = connectionKey h' key' →
  currentConnectionName h = currentConnectionName h' ∧ key = key'.
Proof.
  unfold connectionKey. rewrite !append_one. intros H H' Heq.
  pose proof (first_cut _ _ _ _ _ H H' Heq) as Hname. split; [done|].
  rewrite Hname in Heq. apply append_inv_head in Heq. by injection Heq.
Qed.
End secret_facts.

(** X20. A secret stored by [code-for-ibmi.secret] is read back by the
    same command under the same key and connection, and storing it again
    or reading it changes nothing.  An empty new value reads the secret:
    it does not clear it.  When no connection name holds a [_], a secret
    stored for one connection and key is not the one read for another
    connection or key.  Without a connection the command throws. *)
Theorem secret_is_read_back
    (key value : string) (instance : Instance.t) (connection : Handle)
    (secrets : gmap string string) :
  Instance.connection instance = Some connection → value ≠ "" →
  ∃ secrets',
    Secret.secret key (Some value) instance secrets = Some (Some value, secrets') ∧
    Secret.secret key None instance secrets' = Some (Some value, secrets') ∧
    Secret.secret key (Some "") instance secrets' = Some (Some value, secrets') ∧
    Secret.secret key (Some value) instance secrets' = Some (Some value, secrets') ∧
    (∀ key' instance' connection',
       Instance.connection instance' = Some connection' →
       lacks "_" (currentConnectionName connection) →
       lacks "_" (currentConnectionName connection') →
       (currentConnectionName connection', key') ≠ (currentConnectionName connection, key) →
       Secret.secret key' None instance' secrets'
       = Some (secrets !! Secret.connectionKey connection' key', secrets')) ∧
    (∀ newValue instance',
       Instance.connection instance' = None →
       Secret.secret key newValue instance' secrets' = None).
Proof.
  intros Hc Hv. exists (<[Secret.connectionKey connection key := value]> secrets).
  unfold Secret.secret. rewrite Hc.
  rewrite (bool_decide_eq_false_2 (value = "")) by done.
  rewrite (bool_decide_eq_true_2 ("" = "")) by done.
  rewrite !lookup_insert_eq, insert_insert_eq.
  split_and!; try done.
  - intros key' instance' connection' Hc' H H' Hne. rewrite Hc'.
    rewrite lookup_insert_ne; [done|].
    intros Heq. destruct (connectionKey_inj _ _ _ _ H H' Heq) as [? ?]. congruence.
  - by intros newValue instance' ->.
Qed.

(** X21. [runAction] without a node never runs an action on a document
    with unsaved changes before it has asked for the document to be
    saved.  An action is run at most once, as the last step, and only for
    the schemes [member], [streamfile] and [file]; with the automatic save
    off and a dirty document it is run only on the answers [Save] and
    [Save automatically], and a [save] comes before it; and the setting is
    stored, before the save, on the answer [Save automatically] alone. *)
Theorem runAction_saves_before_it_runs
    (editor : RunAction.Editor) (config : RunAction.Config) (answer : option string)
    (steps : list RunAction.Step) :
  RunAction.runAction None (Some editor) (Some config) answer = Some steps →
  ∃ before (runs : bool),
    steps = before ++ (if runs then [RunAction.RunAction (RunAction.uri editor)] else []) ∧
    (∀ u, RunAction.RunAction u ∉ before) ∧
    (runs = true ↔
     RunAction.scheme (RunAction.uri editor) ∈ ["member"; "streamfile"; "file"] ∧
     (RunAction.autoSaveBeforeAction config = true ∨ RunAction.isDirty editor = false ∨
      answer = Some "Save" ∨ answer = Some "Save automatically")) ∧
    (RunAction.isDirty editor = true → runs = true → RunAction.Save ∈ before) ∧
    (∀ c, RunAction.Update c ∈ before ↔
      c = {| RunAction.autoSaveBeforeAction := true |} ∧
      RunAction.autoSaveBeforeAction config = false ∧ RunAction.isDirty editor = true ∧
      answer = Some "Save automatically" ∧
      ∃ asked saving, before = asked ++ RunAction.Update c :: saving ∧
                      RunAction.Save ∈ saving).
Proof.
  unfold RunAction.runAction.
  destruct (RunAction.autoSaveBeforeAction config) eqn:Hauto,
           (RunAction.isDirty editor) eqn:Hdirty;
    repeat case_bool_decide; intros [= <-].
  all: lazymatch goal with
       | |- ∃ _ _, ?l = _ ∧ _ =>
           first [ exists (removelast l), true; split; [reflexivity|]
                 | exists l, false; split; [by rewrite app_nil_r|] ]
       end; cbn [removelast].
  all: split;
         [intros u Hu; rewrite ?elem_of_cons, ?elem_of_nil in Hu; intuition discriminate|].
  all: split; [intuition congruence|].
  all: split; [intros; rewrite ?elem_of_cons; intuition congruence|].
  all: intros c; split;
         [|intros (-> & _ & _ & _ & asked & saving & -> & _);
           apply elem_of_app; right; apply elem_of_cons; by left].
  all: rewrite ?elem_of_cons, ?elem_of_nil; try (intuition congruence).
  all: intros [?|[[= <-]|[?|[]]]]; try done; split_and!; try done.
  all: eexists [_], [_]; split; [done|]; apply elem_of_cons; by left.
Qed.

(** *** The theorems at the scenarios *)

(** The scenario of the specification: [f1] runs at both fires, the
    transient [f2] at the first only, though it throws. *)
Example two_fires_of_the_scenario :
  snd <$> fires 2 "connected" Scenario.registered
  = Some [[ConsoleTime "connected";
           ConsoleTime "ext.a - refresh"; Invoke "ext.a - refresh" Scenario.f1;
           ConsoleTimeEnd "ext.a - refresh";
           ConsoleTime "ext.b - notify"; Invoke "ext.b - notify" Scenario.f2;
           ConsoleError "connected event function ext.b - notify failed";
           ConsoleTimeEnd "connected"];
          [ConsoleTime "connected";
           ConsoleTime "ext.a - refresh"; Invoke "ext.a - refresh" Scenario.f1;
           ConsoleTimeEnd "ext.a - refresh";
           ConsoleTimeEnd "connected"]].
Proof. by vm_compute. Qed.

(** Two fires of a lone transient subscription: begun one after the
    other, the second finds nothing to call. *)
Example fires_one_after_the_other :
  console <$> run (λ _, true) [Emit "connected"; Settle 0; Emit "connected"]
                (starting Scenario.welcome)
  = Some [ConsoleTime "connected";
          ConsoleTime "ext.b - welcome"; Invoke "ext.b - welcome" Scenario.f1;
          ConsoleTimeEnd "ext.b - welcome"; ConsoleTimeEnd "connected";
          ConsoleTime "connected"; ConsoleTimeEnd "connected"].
Proof. by vm_compute. Qed.

(** A [subscribe] under a key that a record holds writes into that record
    where it stands; when the iterator has passed it, the function written
    is not called in the fire under way. *)
Example resubscribed_record_behind_the_iterator :
  Instance.processEvent "connected" Scenario.overwriting
  = Some (Instance.subscribe (Vscode.ofId "ext.a") "connected" "zero" Scenario.late None
            Scenario.overwriting,
          [ConsoleTime "connected";
           ConsoleTime "ext.a - zero"; Invoke "ext.a - zero" Scenario.f1;
           ConsoleTimeEnd "ext.a - zero";
           ConsoleTime "ext.a - one"; Invoke "ext.a - one" Scenario.one;
           ConsoleTimeEnd "ext.a - one";
           ConsoleTimeEnd "connected"]) ∧
  JsMap.entries
    (Instance.theSubscribers "connected"
       (Instance.subscribe (Vscode.ofId "ext.a") "connected" "zero" Scenario.late None
          Scenario.overwriting))
  = [("ext.a - zero", {| func := Scenario.late; transient := None |});
     ("ext.a - one", {| func := Scenario.one; transient := None |})].
Proof. split; by vm_compute. Qed.

(** The scenario of the specification: a connect that is refused. *)
Example refused_connect :
  Instance.connect Scenario.options [Scenario.throws] Instance.start
  = Some (Returned {| success := false; error := None |},
          {| Instance.self := Instance.init;
             Instance.GlobalStorage := {| lastConnection := "" |};
             Instance.handles := 1 |},
          [OutputClear;
           ConnectCall {| handleId := 0; currentConnectionName := "dev" |} None None;
           Install None; StoreConnectionName "";
           SetContext "code-for-ibmi:connected" false;
           ExecuteCommand "code-for-ibmi.refreshObjectBrowser";
           ExecuteCommand "code-for-ibmi.refreshLibraryListView";
           ExecuteCommand "code-for-ibmi.refreshIFSBrowser";
           Dispose {| handleId := 0; currentConnectionName := "dev" |}]).
Proof. by vm_compute. Qed.




Lemma onEvent_always_appends_witness :
  built Instance.init ∧
  Instance.theSubscribers "connected"
    (Instance.onEvent "connected" Scenario.f1
       (Instance.onEvent "connected" Scenario.f1 Instance.init).1).1
  = [Some ("deprecated - f1_0", {| func := Scenario.f1; transient := None |});
     Some ("deprecated - f1_1", {| func := Scenario.f1; transient := None |})] ∧
  ∃ i' ls,
    fires 2 "connected"
      (Instance.onEvent "connected" Scenario.f1
         (Instance.onEvent "connected" Scenario.f1 Instance.init).1).1
    = Some (i', ls) ∧
    length ls = 2 ∧
    Forall (λ l, ∃ earlier,
              invocations l
              = earlier ++ [("deprecated - f1_0", Scenario.f1);
                            ("deprecated - f1_1", Scenario.f1)]) ls.
Proof.
  split; [exact built_init|].
  destruct (onEvent_always_appends Instance.init "connected" Scenario.f1 built_init)
    as [(_ & Happ & _) Hfires].
  split; [exact Happ|]. exact (Hfires (Forall_nil_2 _) eq_refl 2).
Defined.

Lemma connect_success_witness :
  ending Scenario.options [Scenario.succeeds] ∧
  Forall valued [Scenario.succeeds] ∧
  ∃ r w' tr,
    Instance.connect Scenario.options [Scenario.succeeds] Instance.start
      = Some (Returned r, w', tr) ∧
    success r = true ∧
    connectedBy (newHandle Scenario.options Instance.start) Instance.start w' tr.
Proof.
  split; [left; apply Exists_cons_hd; left; reflexivity|].
  split; [apply Forall_cons; split; [reflexivity|apply Forall_nil_2]|].
  eexists _, _, _. split; [reflexivity|]. split; [reflexivity|].
  exact (proj2 (proj2 (connect_success Scenario.options [Scenario.succeeds]
                         Instance.start))
           _ _ _ eq_refl eq_refl).
Defined.


Lemma unsaved_document_blocks_disconnect_witness :
  Exists (λ d, unsaved d = true) [Scenario.editedMember] ∧
  ∃ tr,
    Instantiate.disconnect [Scenario.editedMember] Instance.init
      = (false, Instance.init, tr) ∧
    ends tr = [] ∧
    fired "disconnected" tr = 0 ∧
    notices tr
    = [ShowErrorMessage "Cannot disconnect while files have not been saved."].
Proof.
  assert (Exists (λ d, unsaved d = true) [Scenario.editedMember]) as Hdirty.
  { apply Exists_cons_hd. reflexivity. }
  split; [exact Hdirty|].
  exact (unsaved_document_blocks_disconnect [Scenario.editedMember] Instance.init Hdirty).
Defined.


(** *** The further properties at the scenarios *)

Lemma fire_reads_only_its_own_event_witness :
  alike "connected" Scenario.registered
    (Instance.subscribe (Vscode.ofId "ext.c") "disconnected" "cleanup" Scenario.f1 None
       Scenario.registered) ∧
  ∃ i' j' log,
    Instance.processEvent "connected" Scenario.registered = Some (i', log) ∧
    Instance.processEvent "connected"
      (Instance.subscribe (Vscode.ofId "ext.c") "disconnected" "cleanup" Scenario.f1 None
         Scenario.registered)
    = Some (j', log) ∧
    alike "connected" i' j'.
Proof.
  assert ("disconnected" ≠ "connected") as Hne by discriminate.
  pose proof (fire_reads_only_its_own_event "connected" Scenario.registered
                (Instance.subscribe (Vscode.ofId "ext.c") "disconnected" "cleanup"
                   Scenario.f1 None Scenario.registered)) as [Hsub Hfire].
  assert (alike "connected" Scenario.registered
            (Instance.subscribe (Vscode.ofId "ext.c") "disconnected" "cleanup"
               Scenario.f1 None Scenario.registered)) as Halike.
  { exact (Hsub (Vscode.ofId "ext.c") "disconnected" "cleanup" Scenario.f1 None Hne). }
  split; [exact Halike|exact (Hfire Halike)].
Defined.

Lemma subscriptions_of_distinct_extensions_coexist_witness :
  lacks " " "ext.a" ∧ lacks " " "ext.b" ∧ ("ext.a", "refresh") ≠ ("ext.b", "refresh") ∧
  "ext.a - refresh" ≠ "ext.b - refresh" ∧
  JsMap.get "ext.a - refresh"
    (Instance.theSubscribers "connected"
       (Instance.subscribe (Vscode.ofId "ext.b") "connected" "refresh" Scenario.f2 None
          (Instance.subscribe (Vscode.ofId "ext.a") "connected" "refresh" Scenario.f1 None
             Instance.init)))
  = Some {| func := Scenario.f1; transient := None |} ∧
  JsMap.get "ext.b - refresh"
    (Instance.theSubscribers "connected"
       (Instance.subscribe (Vscode.ofId "ext.b") "connected" "refresh" Scenario.f2 None
          (Instance.subscribe (Vscode.ofId "ext.a") "connected" "refresh" Scenario.f1 None
             Instance.init)))
  = Some {| func := Scenario.f2; transient := None |}.
Proof.
  assert (lacks " " "ext.a") as Ha by (simpl; by repeat split).
  assert (lacks " " "ext.b") as Hb by (simpl; by repeat split).
  assert (("ext.a", "refresh") ≠ ("ext.b", "refresh")) as Hne by discriminate.
  split; [exact Ha|]. split; [exact Hb|]. split; [exact Hne|].
  exact (subscriptions_of_distinct_extensions_coexist "ext.a" "ext.b" "refresh" "refresh"
           "connected" Scenario.f1 Scenario.f2 None None Instance.init Ha Hb Hne).
Defined.

Lemma fire_without_subscribers_witness :
  JsMap.entries (Instance.theSubscribers "disconnected" Scenario.registered) = [] ∧
  ∃ i',
    Instance.processEvent "disconnected" Scenario.registered
      = Some (i', [ConsoleTime "disconnected"; ConsoleTimeEnd "disconnected"]) ∧
    (∀ ev', Instance.theSubscribers ev' i' = Instance.theSubscribers ev' Scenario.registered) ∧
    Instance.deprecationCount i' = Instance.deprecationCount Scenario.registered ∧
    Instance.connection i' = Instance.connection Scenario.registered ∧
    Instance.storage i' = Instance.storage Scenario.registered.
Proof.
  split; [reflexivity|].
  exact (fire_without_subscribers "disconnected" Scenario.registered eq_refl).
Defined.

Lemma fire_counts_deprecation_warnings_witness :
  ∃ i' log,
    Instance.processEvent "connected" Scenario.migrating = Some (i', log) ∧
    invocations log
      = [("ext.a - old", Scenario.old); ("deprecated - f1_0", Scenario.f1)] ∧
    warnings log = [Instance.deprecationWarning] ∧
    Instance.deprecationCount i' = 1.
Proof.
  eexists _, _. split; [reflexivity|]. split; [reflexivity|].
  exact (fire_counts_deprecation_warnings "connected" Scenario.migrating _ _ eq_refl).
Defined.

Lemma every_call_settles_once_witness :
  ∃ i' log,
    Instance.processEvent "connected" Scenario.registered = Some (i', log) ∧
    timersStarted log = ["connected"; "ext.a - refresh"; "ext.b - notify"] ∧
    timersEnded log = ["ext.a - refresh"; "connected"] ∧
    errorLines log = ["connected event function ext.b - notify failed"].
Proof.
  eexists _, _. split; [reflexivity|].
  exact (every_call_settles_once "connected" Scenario.registered _ _ eq_refl).
Defined.

Lemma lasting_keys_are_called_once_witness :
  JsMap.wf (Instance.theSubscribers "connected" Scenario.reentrant) ∧
  allLasting (Instance.theSubscribers "connected" Scenario.reentrant) ∧
  ∃ i' log,
    Instance.processEvent "connected" Scenario.reentrant = Some (i', log) ∧
    invokedKeys log = JsMap.keys (Instance.theSubscribers "connected" i') ∧
    NoDup (invokedKeys log) ∧
    (∃ added,
       JsMap.keys (Instance.theSubscribers "connected" i')
       = JsMap.keys (Instance.theSubscribers "connected" Scenario.reentrant) ++ added) ∧
    allLasting (Instance.theSubscribers "connected" i').
Proof.
  assert (JsMap.wf (Instance.theSubscribers "connected" Scenario.reentrant)) as Hwf.
  { apply NoDup_cons. split; [apply not_elem_of_nil|apply NoDup_nil_2]. }
  assert (allLasting (Instance.theSubscribers "connected" Scenario.reentrant)) as Hall.
  { apply Forall_cons. split; [|apply Forall_nil_2]. simpl. by repeat split. }
  split; [exact Hwf|]. split; [exact Hall|].
  eexists _, _. split; [reflexivity|].
  exact (lasting_keys_are_called_once "connected" Scenario.reentrant _ _ Hwf Hall eq_refl).
Defined.

Lemma storage_follows_the_connection_witness :
  ∃ r w' tr,
    Instance.connect Reconnect.options Reconnect.script Instance.start
      = Some (Returned r, w', tr) ∧
    reachable w' ∧ inSync w' ∧
    ∀ options, Instance.getConnection w' ≠ Some (newHandle options w').
Proof.
  eexists _, _, _. split; [reflexivity|].
  assert (reachable
            (Instance.storeLast "dev"
               (Instance.install
                  (Some {| handleId := 0; currentConnectionName := "dev" |}) "dev"
                  (Instance.install None ""
                     {| Instance.self := Instance.init;
                        Instance.GlobalStorage := {| lastConnection := "" |};
                        Instance.handles := 1 |})))) as Hw.
  { exact (reachable_connect Reconnect.options Reconnect.script Instance.start _ _ _
             reachable_start eq_refl). }
  split; [exact Hw|]. exact (storage_follows_the_connection _ Hw).
Defined.


Lemma connect_makes_its_attempts_on_one_handle_witness :
  ∃ r w' tr,
    Instance.connect Reconnect.options Reconnect.script Instance.start
      = Some (Returned r, w', tr) ∧
    ∃ n a,
      Reconnect.script !! n = Some a ∧ r = attemptResult a ∧
      Forall retried (take n Reconnect.script) ∧
      connectCalls tr
        = (newHandle Reconnect.options Instance.start, Some true, Some false)
          :: replicate n (newHandle Reconnect.options Instance.start, Some true, Some false) ∧
      length (dialogs tr)
        = (if truthy (reconnecting Reconnect.options) && negb (success r)
           then S n else n) ∧
      (truthy (reconnecting Reconnect.options) = false → n = 0 ∧ dialogs tr = []).
Proof.
  eexists _, _, _. split; [reflexivity|].
  exact (connect_makes_its_attempts_on_one_handle Reconnect.options Reconnect.script
           Instance.start _ _ _ eq_refl).
Defined.

Lemma connected_context_matches_result_witness :
  ∃ r w' tr,
    Instance.connect Reconnect.options Reconnect.script Instance.start
      = Some (Returned r, w', tr) ∧
    connectedContext tr = Some (success r).
Proof.
  eexists _, _, _. split; [reflexivity|].
  exact (connected_context_matches_result Reconnect.options Reconnect.script
           Instance.start _ _ _ eq_refl).
Defined.

Lemma disconnected_is_fired_before_the_connection_is_cleared_witness :
  ∃ w seen rest,
    reachable w ∧
    Instance.getConnection w = Some {| handleId := 0; currentConnectionName := "dev" |} ∧
    (Instance.disconnectedCallback w).2
      = Dispose {| handleId := 0; currentConnectionName := "dev" |}
        :: Fire "disconnected" seen :: Install None :: rest ∧
    seenConnection seen = Some {| handleId := 0; currentConnectionName := "dev" |} ∧
    seenConnectionName seen = "dev" ∧
    seenLastConnection seen = "dev" ∧
    Instance.getConnection (Instance.disconnectedCallback w).1 = None.
Proof.
  assert (reachable
            (Instance.storeLast "dev"
               (Instance.install
                  (Some {| handleId := 0; currentConnectionName := "dev" |}) "dev"
                  {| Instance.self := Instance.init;
                     Instance.GlobalStorage := {| lastConnection := "" |};
                     Instance.handles := 1 |}))) as Hw.
  { exact (reachable_connect Scenario.options [Scenario.succeeds] Instance.start _ _ _
             reachable_start eq_refl). }
  destruct (disconnected_is_fired_before_the_connection_is_cleared _
              {| handleId := 0; currentConnectionName := "dev" |} Hw eq_refl)
    as (seen & rest & Htr & H1 & H2 & H3 & H4).
  eexists _, seen, rest. split; [exact Hw|]. split; [reflexivity|].
  split; [exact Htr|]. by split_and!.
Defined.

Lemma goToFile_keeps_clear_list_apart_witness :
  ("/home/dev/src", ["build.sh"; "main.c"])
    ∈ [("QGPL/QRPGLESRC", ["HELLO.rpgle"]); ("/home/dev/src", ["build.sh"; "main.c"])] ∧
  "main.c" ∈ ["build.sh"; "main.c"] ∧
  GoToFile.items
    [("QGPL/QRPGLESRC", ["HELLO.rpgle"]); ("/home/dev/src", ["build.sh"; "main.c"])]
  = ["QGPL/QRPGLESRC/HELLO.rpgle"; "/home/dev/src/build.sh"; "/home/dev/src/main.c";
     "Clear list"] ∧
  GoToFile.onDidAccept ["/home/dev/src/main.c"] (Some true)
  = Some [GoToFile.OpenEditable "/home/dev/src/main.c" 0 (Some true); GoToFile.Hide].
Proof.
  assert (("/home/dev/src", ["build.sh"; "main.c"])
            ∈ [("QGPL/QRPGLESRC", ["HELLO.rpgle"]);
               ("/home/dev/src", ["build.sh"; "main.c"])]) as Hdir.
  { apply elem_of_cons. right. apply elem_of_cons. by left. }
  assert ("main.c" ∈ ["build.sh"; "main.c"]) as Hsource.
  { apply elem_of_cons. right. apply elem_of_cons. by left. }
  split; [exact Hdir|]. split; [exact Hsource|]. split; [reflexivity|].
  exact (proj1 (proj2 (proj2
           (goToFile_keeps_clear_list_apart _ _ _ _ (Some true) Hdir Hsource)))).
Defined.

Lemma goToFile_paths_tell_their_source_witness :
  lacks "/" "main.c" ∧
  JsString.endsWith "/home/dev/src" "/" = false ∧
  GoToFile.sourcePath "/home/dev/src/" "main.c" = "/home/dev/src/main.c" ∧
  GoToFile.sourcePath "/home/dev/src/" "main.c"
  = GoToFile.sourcePath "/home/dev/src" "main.c".
Proof.
  assert (lacks "/" "main.c") as Hs by (simpl; by repeat split).
  split; [exact Hs|]. split; [reflexivity|]. split; [reflexivity|].
  exact (proj1 (goToFile_paths_tell_their_source "/home/dev/src" "" "main.c" "main.c"
                  Hs Hs) eq_refl).
Defined.

Lemma secret_is_read_back_witness :
  ∃ instance secrets',
    Instance.connection instance = Some {| handleId := 0; currentConnectionName := "dev" |} ∧
    Secret.secret "password" (Some "s3cret") instance ∅ = Some (Some "s3cret", secrets') ∧
    Secret.secret "password" None instance secrets' = Some (Some "s3cret", secrets') ∧
    Secret.secret "password" (Some "") instance secrets' = Some (Some "s3cret", secrets').
Proof.
  exists {| Instance.connection := Some {| handleId := 0; currentConnectionName := "dev" |};
            Instance.storage := Instance.storage Instance.init;
            Instance.subscribers := ∅; Instance.deprecationCount := 0 |}.
  destruct (secret_is_read_back "password" "s3cret"
              {| Instance.connection :=
                   Some {| handleId := 0; currentConnectionName := "dev" |};
                 Instance.storage := Instance.storage Instance.init;
                 Instance.subscribers := ∅; Instance.deprecationCount := 0 |}
              {| handleId := 0; currentConnectionName := "dev" |} ∅ eq_refl)
    as (secrets' & H1 & H2 & H3 & _).
  { discriminate. }
  exists secrets'. split; [reflexivity|]. by split_and!.
Defined.

Lemma runAction_saves_before_it_runs_witness :
  RunAction.runAction None (Some Editing.editor) (Some Editing.config)
    (Some "Save automatically")
  = Some [RunAction.ShowWarningMessage "The file must be saved to run Actions."
            ["Save"; "Save automatically"; "Cancel"];
          RunAction.Update {| RunAction.autoSaveBeforeAction := true |};
          RunAction.Save; RunAction.RunAction Editing.member] ∧
  ∃ (before : list RunAction.Step) (runs : bool),
    [RunAction.ShowWarningMessage "The file must be saved to run Actions."
       ["Save"; "Save automatically"; "Cancel"];
     RunAction.Update {| RunAction.autoSaveBeforeAction := true |};
     RunAction.Save; RunAction.RunAction Editing.member]
    = before ++ (if runs then [RunAction.RunAction Editing.member] else []) ∧
    (∀ u, RunAction.RunAction u ∉ before) ∧
    (runs = true ↔
     RunAction.scheme Editing.member ∈ ["member"; "streamfile"; "file"] ∧
     (RunAction.autoSaveBeforeAction Editing.config = true ∨
      RunAction.isDirty Editing.editor = false ∨
      Some "Save automatically" = Some "Save" ∨
      Some "Save automatically" = Some "Save automatically")) ∧
    (RunAction.isDirty Editing.editor = true → runs = true → RunAction.Save ∈ before) ∧
    (∀ c, RunAction.Update c ∈ before ↔
      c = {| RunAction.autoSaveBeforeAction := true |} ∧
      RunAction.autoSaveBeforeAction Editing.config = false ∧
      RunAction.isDirty Editing.editor = true ∧
      Some "Save automatically" = Some "Save automatically" ∧
      ∃ asked saving, before = asked ++ RunAction.Update c :: saving ∧
                      RunAction.Save ∈ saving).
Proof.
  split; [reflexivity|].
  exact (runAction_saves_before_it_runs Editing.editor Editing.config
           (Some "Save automatically") _ eq_refl).
Defined.
